(** * Feature engineering for the combined loan dataset (prepare_data.py)

    A shallow embedding of the field parsers, the per-batch feature
    engineer and the chunked driver, with the properties the
    specification states about them.

    Modelling conventions.
    - Text is ASCII: a Python [str] is a [string]; characters above 127
      are opaque to [isdigit], [isspace] and [lower].
    - A Python float is an exact rational ([Num q], kept reduced) or the
      missing marker [NaN]; rounding, overflow and the spellings of
      infinity are outside the model.
    - A data frame is its row count together with an ordered list of
      labelled columns; pandas operations are modelled column by column,
      as the source applies them. *)

From Stdlib Require Import String Ascii List ZArith NArith QArith Bool Arith Lia.
From Stdlib Require Import Permutation Sorted DecimalString OrdersEx.
Import ListNotations.

(** ** Python string methods on ASCII text *)

Module Text.

Open Scope N_scope.

Definition isdigit (c : ascii) : bool :=
  (48 <=? N_of_ascii c) && (N_of_ascii c <=? 57).

(** [str.isspace] on ASCII: tab to carriage return, the four
    separators 28-31, and the blank. *)
Definition isspace (c : ascii) : bool :=
  let n := N_of_ascii c in
  ((9 <=? n) && (n <=? 13)) || ((28 <=? n) && (n <=? 32)).

Definition lower_char (c : ascii) : ascii :=
  let n := N_of_ascii c in
  if (65 <=? n) && (n <=? 90) then ascii_of_N (n + 32) else c.

Fixpoint lower (s : string) : string :=
  match s with
  | EmptyString => EmptyString
  | String c r => String (lower_char c) (lower r)
  end.

Fixpoint filter_chars (p : ascii -> bool) (s : string) : string :=
  match s with
  | EmptyString => EmptyString
  | String c r => if p c then String c (filter_chars p r) else filter_chars p r
  end.

Fixpoint for_all (p : ascii -> bool) (s : string) : bool :=
  match s with
  | EmptyString => true
  | String c r => p c && for_all p r
  end.

Fixpoint lstrip (s : string) : string :=
  match s with
  | EmptyString => EmptyString
  | String c r => if isspace c then lstrip r else s
  end.

Fixpoint rstrip (s : string) : string :=
  match s with
  | EmptyString => EmptyString
  | String c r =>
      match rstrip r with
      | EmptyString => if isspace c then EmptyString else String c EmptyString
      | r' => String c r'
      end
  end.

Definition strip (s : string) : string := rstrip (lstrip s).

(** ["".join(ch for ch in s if ch.isdigit())] *)
Definition digits (s : string) : string := filter_chars isdigit s.

(** [s.replace("%", "")] *)
Definition remove_percent (s : string) : string :=
  filter_chars (fun c => negb (Ascii.eqb c "%")) s.

(** The longest prefix of [s] made of digits, and what follows it. *)
Fixpoint span_digits (s : string) : string * string :=
  match s with
  | EmptyString => (EmptyString, EmptyString)
  | String c r =>
      if isdigit c
      then let (d, rest) := span_digits r in (String c d, rest)
      else (EmptyString, s)
  end.

Definition digit_val (c : ascii) : N := N_of_ascii c - 48.

Fixpoint number_from (acc : N) (s : string) : N :=
  match s with
  | EmptyString => acc
  | String c r => number_from (10 * acc + digit_val c) r
  end.

(** The natural number a digit string denotes in base ten. *)
Definition number (s : string) : N := number_from 0 s.

Definition is_empty (s : string) : bool :=
  match s with EmptyString => true | _ => false end.

End Text.

(** ** Scalars, exceptions *)

(** One cell of a data frame: the missing marker (numpy's nan), a text,
    a number, or a one-hot indicator. *)
Inductive cell : Type :=
| NaN
| Txt (s : string)
| Num (q : Q)
| Flag (b : bool).

Inductive exn : Type := ValueError.

Inductive result (A : Type) : Type :=
| Ok (a : A)
| Raise (e : exn).

Arguments Ok {A} a.
Arguments Raise {A} e.

Definition bind {A B} (m : result A) (k : A -> result B) : result B :=
  match m with
  | Ok a => k a
  | Raise e => Raise e
  end.

Notation "x <- m ;; k" := (bind m (fun x => k))
  (at level 61, m at next level, right associativity).

(** [Series.apply(f)] with a function that may raise: the first
    exception aborts the whole call. *)
Fixpoint apply (f : cell -> result cell) (col : list cell) : result (list cell) :=
  match col with
  | [] => Ok []
  | x :: rest =>
      y <- f x ;;
      ys <- apply f rest ;;
      Ok (y :: ys)
  end.

Definition isna (v : cell) : bool :=
  match v with NaN => true | _ => false end.

(** ** Printing and reading floats *)

Module PyFloat.

Open Scope Z_scope.

Definition digit_char (d : Z) : ascii := ascii_of_N (Z.to_N (48 + d)).

Definition string_of_nonneg (z : Z) : string :=
  NilEmpty.string_of_uint (N.to_uint (Z.to_N z)).

Fixpoint frac_digits (fuel : nat) (r d : Z) : string :=
  match fuel with
  | O => EmptyString
  | S k =>
      if r =? 0 then EmptyString
      else String (digit_char (r * 10 / d)) (frac_digits k (r * 10 mod d) d)
  end.

(** [str(x)] for a float [x]: sign, integer part, point, and the
    decimal expansion of the fraction (at most 17 digits, ["0"] when
    there is none). *)
Definition repr (q : Q) : string :=
  let d := Zpos (Qden q) in
  let a := Z.abs (Qnum q) in
  let frac := frac_digits 17 (a mod d) d in
  let sign := if Qnum q <? 0 then "-"%string else EmptyString in
  let whole := if a / d =? 0 then "0"%string else string_of_nonneg (a / d) in
  let part := if Text.is_empty frac then "0"%string else frac in
  String.append sign (String.append whole (String "." part)).

Definition take_sign (s : string) : bool * string :=
  match s with
  | String "-" r => (true, r)
  | String "+" r => (false, r)
  | _ => (false, s)
  end.

(** The exponent part of a literal: nothing, or [e]/[E], an optional
    sign and at least one digit, up to the end of the text. *)
Definition exponent (s : string) : option Z :=
  match s with
  | EmptyString => Some 0
  | String c r =>
      if Ascii.eqb c "e" || Ascii.eqb c "E" then
        let (neg, ds) := take_sign r in
        if Text.is_empty ds || negb (Text.for_all Text.isdigit ds) then None
        else Some (if neg then - Z.of_N (Text.number ds) else Z.of_N (Text.number ds))
      else None
  end.

(** An unsigned decimal literal: digits, an optional point with
    digits (one of the two digit runs may be empty), an optional
    exponent. *)
Definition decimal_literal (s : string) : option Q :=
  let (ip, r1) := Text.span_digits s in
  let (fp, r2) :=
    match r1 with
    | String "." r => Text.span_digits r
    | _ => (EmptyString, r1)
    end in
  if Text.is_empty ip && Text.is_empty fp then None
  else
    match exponent r2 with
    | None => None
    | Some e =>
        let mantissa := Z.of_N (Text.number (ip ++ fp)) in
        Some (inject_Z mantissa * Qpower (10 # 1) (e - Z.of_nat (String.length fp)))%Q
    end.

(** Python's [float(s)] on text: surrounding blanks are ignored, a
    sign may lead, ["nan"] in any case gives the missing marker, a
    decimal literal gives its value, anything else raises
    [ValueError]. *)
Definition float (s : string) : result cell :=
  let (neg, body) := take_sign (Text.strip s) in
  if String.eqb (Text.lower body) "nan" then Ok NaN
  else
    match decimal_literal body with
    | Some q => Ok (Num (Qred (if neg then - q else q)%Q))
    | None => Raise ValueError
    end.

End PyFloat.

(** [str(v)] for a cell. *)
Definition py_str (v : cell) : string :=
  match v with
  | NaN => "nan"
  | Txt s => s
  | Num q => PyFloat.repr q
  | Flag true => "True"
  | Flag false => "False"
  end.

(** ** Configuration *)

Definition RAW_CATEGORICAL_COLUMNS : list string :=
  ["term"; "emp_length"; "home_ownership"; "purpose"; "addr_state";
   "application_type"]%string.

Definition RAW_NUMERIC_COLUMNS : list string :=
  ["loan_amnt"; "int_rate"; "annual_inc"; "dti"; "delinq_2yrs";
   "fico_range_high"; "fico_range_low"; "inq_last_6mths"]%string.

Definition TARGET_COLUMN : string := "loan_status".

(** ** Field parsers *)

Definition mem_string (s : string) (l : list string) : bool :=
  existsb (String.eqb s) l.

Definition _parse_term (term_value : cell) : result cell :=
  if isna term_value then Ok NaN
  else
    let digits := Text.digits (py_str term_value) in
    if Text.is_empty digits then Ok NaN else PyFloat.float digits.

Definition _parse_emp_length (emp_length_value : cell) : result cell :=
  if isna emp_length_value then Ok NaN
  else
    let value := Text.lower (Text.strip (py_str emp_length_value)) in
    if mem_string value ["10+ years"; "10 years"; "10+"]%string then Ok (Num 10)
    else if mem_string value ["< 1 year"; "<1 year"; "<1"]%string then Ok (Num 0)
    else
      let digits := Text.digits value in
      if Text.is_empty digits then Ok NaN else PyFloat.float digits.

Definition _parse_percentage (value : cell) : result cell :=
  if isna value then Ok NaN
  else
    let cleaned := Text.strip (Text.remove_percent (py_str value)) in
    if Text.is_empty cleaned then Ok NaN else PyFloat.float cleaned.

(** ** Data frames

    A frame has [nrows] rows (the length of its index) and labelled
    columns in order.  Frames read from the source have columns of
    [nrows] cells each and distinct labels (pandas renames repeated
    headers on reading); labels that collide only after normalisation are
    outside the model, which looks a label up at its first column. *)

Record DataFrame : Type := mkFrame {
  nrows : nat;
  data : list (string * list cell)
}.

Definition labels (df : DataFrame) : list string := map fst (data df).

Fixpoint lookup (c : string) (cols : list (string * list cell)) : option (list cell) :=
  match cols with
  | [] => None
  | (c', col) :: rest => if String.eqb c c' then Some col else lookup c rest
  end.

(** [df.get(c)]: the column labelled [c], or [None]. *)
Definition get (c : string) (df : DataFrame) : option (list cell) :=
  lookup c (data df).

(** [c in df.columns] *)
Definition has (c : string) (df : DataFrame) : bool :=
  mem_string c (labels df).

Fixpoint update (c : string) (col : list cell) (cols : list (string * list cell))
  : list (string * list cell) :=
  match cols with
  | [] => [(c, col)]
  | (c', col') :: rest =>
      if String.eqb c c' then (c', col) :: rest else (c', col') :: update c col rest
  end.

(** [df[c] = col]: overwrite the column labelled [c], or add it last. *)
Definition assign (c : string) (col : list cell) (df : DataFrame) : DataFrame :=
  mkFrame (nrows df) (update c col (data df)).

Fixpoint keep {A} (mask : list bool) (col : list A) : list A :=
  match mask, col with
  | b :: m, x :: r => if b then x :: keep m r else keep m r
  | _, _ => []
  end.

(** [df[mask]]: the rows at which the boolean mask holds. *)
Definition select_rows (mask : list bool) (df : DataFrame) : DataFrame :=
  mkFrame (count_occ bool_dec mask true)
          (map (fun '(c, col) => (c, keep mask col)) (data df)).

(** [df[names]]: the named columns, in the order asked. *)
Definition select_columns (names : list string) (df : DataFrame) : DataFrame :=
  mkFrame (nrows df)
          (flat_map (fun c => match get c df with
                              | Some col => [(c, col)]
                              | None => []
                              end) names).

(** [pd.concat([a, b], axis=1)] for frames over the same index. *)
Definition concat_columns (a b : DataFrame) : DataFrame :=
  mkFrame (nrows a) (data a ++ data b).

(** [df.empty]: some axis has length zero. *)
Definition empty (df : DataFrame) : bool :=
  (nrows df =? 0)%nat || match data df with [] => true | _ => false end.

(** ** Column operations *)

(** [pd.to_numeric(..., errors="coerce")] on one cell. *)
Definition to_numeric_cell (v : cell) : cell :=
  match v with
  | NaN => NaN
  | Num q => Num q
  | Flag b => Num (if b then 1 else 0)
  | Txt s => match PyFloat.float s with
             | Ok x => x
             | Raise _ => NaN
             end
  end.

Definition to_numeric (col : list cell) : list cell := map to_numeric_cell col.

(** [.astype(str).str.strip().str.lower()] on one cell. *)
Definition normalize_text (v : cell) : cell :=
  Txt (Text.lower (Text.strip (py_str v))).

Definition add_cell (a b : cell) : cell :=
  match a, b with
  | Num x, Num y => Num (Qred (x + y))
  | _, _ => NaN
  end.

Definition half_cell (a : cell) : cell :=
  match a with
  | Num x => Num (Qred (x / 2))
  | _ => NaN
  end.

(** [series.fillna(v)] *)
Definition fillna (v : cell) (col : list cell) : list cell :=
  map (fun x => if isna x then v else x) col.

Definition numbers (col : list cell) : list Q :=
  flat_map (fun v => match v with Num q => [q] | _ => [] end) col.

Definition texts (col : list cell) : list string :=
  flat_map (fun v => match v with Txt s => [s] | _ => [] end) col.

Fixpoint insert_Q (x : Q) (l : list Q) : list Q :=
  match l with
  | [] => [x]
  | y :: r => if Qle_bool x y then x :: l else y :: insert_Q x r
  end.

Definition sort_Q (l : list Q) : list Q := fold_right insert_Q [] l.

(** [series.median()]: the middle of the sorted non-missing values, the
    mean of the two middle ones when their count is even, the missing
    marker when there is none. *)
Definition median (col : list cell) : cell :=
  let s := sort_Q (numbers col) in
  let n := length s in
  if (n =? 0)%nat then NaN
  else if Nat.odd n then Num (nth (n / 2) s 0)
  else Num (Qred ((nth (n / 2 - 1) s 0 + nth (n / 2) s 0) / 2)).

Fixpoint insert_level (x : string) (l : list string) : list string :=
  match l with
  | [] => [x]
  | y :: r =>
      if String.eqb x y then l
      else if String.ltb x y then x :: l
      else y :: insert_level x r
  end.

(** The distinct values of a list of texts, in ascending order. *)
Definition levels (l : list string) : list string := fold_right insert_level [] l.

Definition occurrences (v : string) (l : list string) : nat :=
  count_occ string_dec l v.

Definition max_occurrences (l : list string) : nat :=
  fold_right (fun v m => Nat.max (occurrences v l) m) 0%nat (levels l).

(** [series.mode(dropna=True)]: every most frequent value, ascending. *)
Definition mode (col : list cell) : list string :=
  let l := texts col in
  filter (fun v => (occurrences v l =? max_occurrences l)%nat) (levels l).

(** [.astype(int)] raises on a missing or non-numeric cell and
    truncates a number towards zero. *)
Definition astype_int_cell (v : cell) : result cell :=
  match v with
  | Num q => Ok (Num (inject_Z (Z.quot (Qnum q) (Zpos (Qden q)))))
  | Flag b => Ok (Num (if b then 1 else 0))
  | NaN => Raise ValueError
  | Txt s =>
      let (neg, ds) := PyFloat.take_sign (Text.strip s) in
      if Text.is_empty ds || negb (Text.for_all Text.isdigit ds)
      then Raise ValueError
      else
        let n := Z.of_N (Text.number ds) in
        Ok (Num (inject_Z (if neg then - n else n)%Z))
  end.

Definition astype_int (col : list cell) : result (list cell) :=
  apply astype_int_cell col.

(** ** Composite score and column-name normalisation *)

Definition _build_fico_score (df : DataFrame) : list cell :=
  let low := get "fico_range_low" df in
  let high := get "fico_range_high" df in
  match low, high with
  | Some low, Some high =>
      map half_cell
          (map (fun p => add_cell (fst p) (snd p))
               (combine (to_numeric low) (to_numeric high)))
  | Some low, None => to_numeric low
  | None, Some high => to_numeric high
  | None, None => repeat NaN (nrows df)
  end.

Definition _normalize_columns (df : DataFrame) : DataFrame :=
  mkFrame (nrows df)
          (map (fun '(c, col) => (Text.strip (Text.lower c), col)) (data df)).

(** ** Core feature engineering, step by step *)

(** [if src in working.columns: working[dst] = working[src].apply(parser)] *)
Definition derive (src dst : string) (parser : cell -> result cell)
           (working : DataFrame) : result DataFrame :=
  match get src working with
  | Some col =>
      parsed <- apply parser col ;;
      Ok (assign dst parsed working)
  | None => Ok working
  end.

Definition derived_numeric_fields (working : DataFrame) : result DataFrame :=
  working <- derive "term" "term_months" _parse_term working ;;
  working <- derive "emp_length" "emp_length_years" _parse_emp_length working ;;
  working <- derive "int_rate" "int_rate" _parse_percentage working ;;
  working <- derive "dti" "dti" _parse_percentage working ;;
  Ok (assign "fico_score" (_build_fico_score working) working).

(** [.map({"accepted": 1, "rejected": 0})] on one cell. *)
Definition map_label (v : cell) : cell :=
  match v with
  | Txt s =>
      if String.eqb s "accepted" then Num 1
      else if String.eqb s "rejected" then Num 0
      else NaN
  | _ => NaN
  end.

Definition encode_label (v : cell) : cell := map_label (normalize_text v).

(** [.isin([0, 1])] on one cell. *)
Definition isin_0_1 (v : cell) : bool :=
  match v with
  | Num q => Qeq_bool q 0 || Qeq_bool q 1
  | _ => false
  end.

Definition target_encoding (working : DataFrame) : DataFrame :=
  match get TARGET_COLUMN working with
  | Some col =>
      let working := assign TARGET_COLUMN (map encode_label col) working in
      let mask_valid :=
        match get TARGET_COLUMN working with
        | Some encoded => map isin_0_1 encoded
        | None => []
        end in
      select_rows mask_valid working
  | None => working
  end.

Definition NUMERIC_CANDIDATES : list string :=
  RAW_NUMERIC_COLUMNS ++ ["term_months"; "emp_length_years"; "fico_score"]%string.

(** The loop [for column in ...: if column in working.columns:
    features.append(column); working[column] = f(working[column])]. *)
Definition identify (f : list cell -> list cell) (candidates : list string)
           (working : DataFrame) : list string * DataFrame :=
  fold_left
    (fun (st : list string * DataFrame) column =>
       let (features, working) := st in
       match get column working with
       | Some col => (features ++ [column], assign column (f col) working)
       | None => st
       end)
    candidates ([], working).

Definition identify_numeric (working : DataFrame) : list string * DataFrame :=
  identify to_numeric NUMERIC_CANDIDATES working.

Definition identify_categorical (working : DataFrame) : list string * DataFrame :=
  identify (map normalize_text) RAW_CATEGORICAL_COLUMNS working.

(** The loop [for column in features: working[column] = f(working[column])]. *)
Definition transform (f : list cell -> list cell) (features : list string)
           (working : DataFrame) : DataFrame :=
  fold_left
    (fun working column =>
       match get column working with
       | Some col => assign column (f col) working
       | None => working
       end)
    features working.

Definition impute_numeric_column (col : list cell) : list cell :=
  let median_val := median col in
  fillna median_val col.

(** [series.replace({"nan": np.nan})] *)
Definition replace_nan_text (col : list cell) : list cell :=
  map (fun v => match v with
                | Txt s => if String.eqb s "nan" then NaN else v
                | _ => v
                end) col.

Definition fill_value (col : list cell) : cell :=
  match mode col with
  | m :: _ => Txt m
  | [] => Txt "unknown"
  end.

Definition impute_categorical_column (col : list cell) : list cell :=
  let col := replace_nan_text col in
  fillna (fill_value col) col.

Definition impute_missing (numeric_features categorical_features : list string)
           (working : DataFrame) : DataFrame :=
  let working := transform impute_numeric_column numeric_features working in
  transform impute_categorical_column categorical_features working.

(** The indicator columns of one categorical column: one per distinct
    value, in ascending order, labelled [prefix_value]. *)
Definition dummies_of (prefix : string) (col : list cell) : list (string * list cell) :=
  map (fun v =>
         (String.append prefix (String "_" v),
          map (fun x => match x with
                        | Txt s => Flag (String.eqb s v)
                        | _ => Flag false
                        end) col))
      (levels (texts col)).

(** [pd.get_dummies(working[features], prefix=features, drop_first=False)],
    or the frame without columns when there is no categorical feature. *)
Definition one_hot_encode (categorical_features : list string)
           (working : DataFrame) : DataFrame :=
  mkFrame (nrows working)
          (flat_map (fun c => match get c working with
                              | Some col => dummies_of c col
                              | None => []
                              end) categorical_features).

Definition assemble (numeric_features : list string) (encoded working : DataFrame)
  : result DataFrame :=
  let features_part := concat_columns (select_columns numeric_features working) encoded in
  match get TARGET_COLUMN working with
  | Some target =>
      as_int <- astype_int target ;;
      Ok (assign TARGET_COLUMN as_int features_part)
  | None => Ok features_part
  end.

Definition engineer_features (df : DataFrame) : result DataFrame :=
  let df := _normalize_columns df in
  working <- derived_numeric_fields df ;;
  let working := target_encoding working in
  let (numeric_features, working) := identify_numeric working in
  let (categorical_features, working) := identify_categorical working in
  let working := impute_missing numeric_features categorical_features working in
  let encoded := one_hot_encode categorical_features working in
  assemble numeric_features encoded working.

(** ** Schema reconciliation and the output sink *)

Fixpoint distinct (l : list string) : bool :=
  match l with
  | [] => true
  | x :: r => negb (mem_string x r) && distinct r
  end.

Definition same_labels (a b : list string) : bool :=
  if list_eq_dec string_dec a b then true else false.

(** [df.reindex(columns=schema_columns, fill_value=0)].  A frame that
    already carries exactly the asked labels is returned as it is;
    otherwise pandas refuses to reindex an axis with repeated labels,
    and else lays the columns out as asked, a column of zeros standing
    for every label the frame lacks. *)
Definition reindex (schema_columns : list string) (df : DataFrame) : result DataFrame :=
  if same_labels (labels df) schema_columns then Ok df
  else if negb (distinct (labels df)) then Raise ValueError
  else
    Ok (mkFrame (nrows df)
          (map (fun c => (c, match get c df with
                             | Some col => col
                             | None => repeat (Num 0) (nrows df)
                             end)) schema_columns)).

(** One line of the output file. *)
Inductive line : Type :=
| Header (names : list string)
| Row (cells : list cell).

Definition row_at (df : DataFrame) (i : nat) : list cell :=
  map (fun '(_, col) => nth i col NaN) (data df).

(** The records of a frame, one per index position. *)
Definition to_rows (df : DataFrame) : list (list cell) :=
  map (row_at df) (seq 0 (nrows df)).

(** [df.to_csv(path, index=False)]: a fresh file, header first. *)
Definition to_csv (df : DataFrame) : list line :=
  Header (labels df) :: map Row (to_rows df).

(** [df.to_csv(path, mode="a", index=False, header=False)] *)
Definition to_csv_append (df : DataFrame) (file : list line) : list line :=
  file ++ map Row (to_rows df).

(** ** Reading the source *)

(** [pd.read_csv(path, nrows=n)] *)
Definition read_csv_nrows (n : nat) (source : DataFrame) : DataFrame :=
  mkFrame (Nat.min n (nrows source))
          (map (fun '(c, col) => (c, firstn n col)) (data source)).

Definition skip_rows (n : nat) (source : DataFrame) : DataFrame :=
  mkFrame (nrows source - n)
          (map (fun '(c, col) => (c, skipn n col)) (data source)).

Fixpoint chunks (fuel chunk_size : nat) (rest : DataFrame) : list DataFrame :=
  match fuel with
  | O => []
  | S k =>
      if (nrows rest =? 0)%nat then []
      else read_csv_nrows chunk_size rest :: chunks k chunk_size (skip_rows chunk_size rest)
  end.

(** [pd.read_csv(path, chunksize=chunk_size, skiprows=range(1, skip + 1))]:
    the rows after the first [skip], in batches of [chunk_size]; a chunk
    size below one is refused. *)
Definition read_csv_chunks (skip chunk_size : nat) (source : DataFrame)
  : result (list DataFrame) :=
  if (chunk_size =? 0)%nat then Raise ValueError
  else
    let rest := skip_rows skip source in
    Ok (chunks (nrows rest) chunk_size rest).

(** ** Chunked processing *)

Definition engineer_sample_and_get_schema (source : DataFrame) (sample_rows : nat)
  : result (DataFrame * list string) :=
  let df_sample := read_csv_nrows sample_rows source in
  engineered_sample <- engineer_features df_sample ;;
  let schema_columns := labels engineered_sample in
  Ok (engineered_sample, schema_columns).

(** What a run leaves behind: the output file as written so far, the
    running row total, and the exception that aborted it, if any. *)
Record run : Type := mkRun {
  output : list line;
  total_rows_processed : nat;
  failure : option exn
}.

(** The loop over the chunk reader. *)
Fixpoint process_chunks (schema_columns : list string) (reader : list DataFrame)
         (file : list line) (total : nat) : run :=
  match reader with
  | [] => mkRun file total None
  | chunk :: reader =>
      match engineer_features chunk with
      | Raise e => mkRun file total (Some e)
      | Ok engineered_chunk =>
          if empty engineered_chunk
          then process_chunks schema_columns reader file total
          else
            match reindex schema_columns engineered_chunk with
            | Raise e => mkRun file total (Some e)
            | Ok engineered_chunk =>
                process_chunks schema_columns reader
                               (to_csv_append engineered_chunk file)
                               (total + nrows engineered_chunk)
            end
      end
  end.

Definition process_full_dataset_chunked (source : DataFrame)
           (sample_rows chunk_size : nat) : run :=
  match engineer_sample_and_get_schema source sample_rows with
  | Raise e => mkRun [] 0 (Some e)
  | Ok (engineered_sample, schema_columns) =>
      let file := to_csv engineered_sample in
      let total := nrows engineered_sample in
      match read_csv_chunks sample_rows chunk_size source with
      | Raise e => mkRun file total (Some e)
      | Ok reader => process_chunks schema_columns reader file total
      end
  end.

(** ** Notions used to state the properties *)

(** The value a parser reads off a digit string: missing when there is
    no digit, the denoted number otherwise. *)
Definition digits_value (digits : string) : cell :=
  if Text.is_empty digits then NaN
  else Num (inject_Z (Z.of_N (Text.number digits))).


(** The first maximal run of digits of a text: what precedes the first
    digit is passed over. *)
Fixpoint first_digit_run (s : string) : string :=
  match s with
  | EmptyString => EmptyString
  | String c r =>
      if Text.isdigit c then fst (Text.span_digits s) else first_digit_run r
  end.



(** The term parser as the specification words it: the leading digit
    run, read as a number. *)
Definition term_of_leading_run (term_value : cell) : cell :=
  if isna term_value then NaN
  else digits_value (first_digit_run (py_str term_value)).

(** Every column of the frame has one cell per row. *)
Definition rectangular (df : DataFrame) : bool :=
  forallb (fun kv => (length (snd kv) =? nrows df)%nat) (data df).

(** The features the two identification loops select, and the working
    frame once both loops and the imputation have run. *)
Definition numeric_features_of (working : DataFrame) : list string :=
  fst (identify_numeric working).

Definition categorical_features_of (working : DataFrame) : list string :=
  fst (identify_categorical (snd (identify_numeric working))).

Definition imputed_working (working : DataFrame) : DataFrame :=
  let (numeric_features, working) := identify_numeric working in
  let (categorical_features, working) := identify_categorical working in
  impute_missing numeric_features categorical_features working.

(** The mean of two coerced bounds: a number when both are numbers,
    missing otherwise. *)
Definition mean_cell (low high : cell) : cell :=
  match low, high with
  | Num x, Num y => Num (Qred ((x + y) / 2))
  | _, _ => NaN
  end.

(** A raw label is valid when its encoding is 0 or 1. *)
Definition label_is_valid (v : cell) : bool := isin_0_1 (encode_label v).

(** The batch without the rows whose label is not valid (the batch
    itself when it has no label column). *)
Definition valid_rows (df : DataFrame) : DataFrame :=
  match get TARGET_COLUMN (_normalize_columns df) with
  | Some col => select_rows (map label_is_valid col) df
  | None => df
  end.


(** A small batch with gaps in a numeric and in a categorical column. *)
Definition imputation_example : DataFrame :=
  mkFrame 4 [("loan_amnt", [Txt "100"; NaN; Txt "300"; Txt "x"]);
             ("purpose", [Txt "Car"; NaN; Txt "car "; Txt "house"])]%string.

(** The frames a run of the chunk loop appends to the sink, in order:
    the reconciled non-empty engineered chunks, up to the first chunk on
    which engineering or reconciliation raises. *)
Fixpoint appended (schema_columns : list string) (reader : list DataFrame)
  : list DataFrame :=
  match reader with
  | [] => []
  | chunk :: reader =>
      match engineer_features chunk with
      | Raise _ => []
      | Ok engineered_chunk =>
          if empty engineered_chunk then appended schema_columns reader
          else
            match reindex schema_columns engineered_chunk with
            | Raise _ => []
            | Ok reconciled => reconciled :: appended schema_columns reader
            end
      end
  end.

Definition rows_of (frames : list DataFrame) : list (list cell) :=
  flat_map to_rows frames.

(** A sample and two later chunks: the first chunk has no valid label,
    the second brings a category the sample did not have. *)
Definition sample_source : DataFrame :=
  mkFrame 4
    [("term", [Txt "36 months"; Txt "60 months"; Txt "36 months"; Txt "12 months"]);
     ("loan_status", [Txt "Accepted"; Txt "rejected"; Txt "pending"; Txt "accepted"])]%string.

(** A chunk whose only label is not recognised. *)
Definition pending_chunk : DataFrame :=
  mkFrame 1 [("loan_amnt", [Txt "1000"]); ("loan_status", [Txt "pending"])]%string.

(** The labels of the indicator columns of one categorical column. *)
Definition dummy_labels (prefix : string) (col : list cell) : list string :=
  map (fun v => String.append prefix (String "_" v)) (levels (texts col)).

(** The percentage parser accepts every cell of the column labelled [c]
    (vacuously when there is no such column). *)
Definition percentages_parse (c : string) (df : DataFrame) : bool :=
  match get c df with
  | Some col => forallb (fun v => match _parse_percentage v with
                                  | Ok _ => true
                                  | Raise _ => false
                                  end) col
  | None => true
  end.


Definition is_text (v : cell) : bool :=
  match v with Txt _ => true | _ => false end.

Fixpoint starts_with (prefix s : string) : bool :=
  match prefix, s with
  | EmptyString, _ => true
  | String a p, String b r => Ascii.eqb a b && starts_with p r
  | String _ _, EmptyString => false
  end.

(** The cells the given columns hold at row [i]. *)
Definition flags_at (i : nat) (cols : list (string * list cell)) : list cell :=
  map (fun kv => nth i (snd kv) NaN) cols.

Definition count_true (flags : list cell) : nat :=
  length (filter (fun v => match v with Flag true => true | _ => false end) flags).

(** [a] comes strictly before [b] in the order of Python's string
    comparison. *)
Definition before (a b : string) : Prop := String.ltb a b = true.

(** * Properties *)

(** ** Characters and digit strings *)

Section DigitStrings.

Open Scope string_scope.

Ltac by_cases_on c :=
  destruct c as [[] [] [] [] [] [] [] []]; vm_compute; congruence.

Lemma isdigit_not_space c : Text.isdigit c = true -> Text.isspace c = false.
Proof. by_cases_on c. Qed.

Lemma isdigit_lower c : Text.isdigit c = true -> Text.lower_char c = c.
Proof. by_cases_on c. Qed.

Lemma isdigit_not_n c : Text.isdigit c = true -> Ascii.eqb c "n" = false.
Proof. by_cases_on c. Qed.

Lemma isdigit_take_sign c r :
  Text.isdigit c = true -> PyFloat.take_sign (String c r) = (false, String c r).
Proof.
  destruct c as [[] [] [] [] [] [] [] []]; vm_compute; congruence.
Qed.

Lemma digits_all s : Text.for_all Text.isdigit (Text.digits s) = true.
Proof.
  unfold Text.digits.
  induction s as [|c r IH]; simpl; [reflexivity|].
  destruct (Text.isdigit c) eqn:E; simpl; [rewrite E|]; assumption.
Qed.

Lemma rstrip_digits s : Text.for_all Text.isdigit s = true -> Text.rstrip s = s.
Proof.
  induction s as [|c r IH]; simpl; [reflexivity|].
  intros H. apply andb_true_iff in H as [Hc Hr].
  rewrite (IH Hr). destruct r; [|reflexivity].
  now rewrite (isdigit_not_space _ Hc).
Qed.

Lemma strip_digits s : Text.for_all Text.isdigit s = true -> Text.strip s = s.
Proof.
  intros H. unfold Text.strip.
  assert (L : Text.lstrip s = s).
  { destruct s as [|c r]; [reflexivity|]. simpl in *.
    apply andb_true_iff in H as [Hc _].
    now rewrite (isdigit_not_space _ Hc). }
  rewrite L. now apply rstrip_digits.
Qed.

Lemma span_digits_all s :
  Text.for_all Text.isdigit s = true -> Text.span_digits s = (s, "").
Proof.
  induction s as [|c r IH]; simpl; [reflexivity|].
  intros H. apply andb_true_iff in H as [Hc Hr].
  now rewrite Hc, (IH Hr).
Qed.

Lemma append_empty_r s : s ++ "" = s.
Proof. induction s; simpl; congruence. Qed.

Lemma Qred_inject_Z m : Qred (inject_Z m) = inject_Z m.
Proof.
  unfold Qred, inject_Z.
  pose proof (Z.ggcd_gcd m 1) as G.
  pose proof (Z.ggcd_correct_divisors m 1) as D.
  destruct (Z.ggcd m 1) as [g [aa bb]]. simpl in *.
  rewrite Z.gcd_1_r in G. subst g. destruct D as [Da Db].
  rewrite Z.mul_1_l in Da, Db. now subst.
Qed.

(** [float] reads a non-empty digit string as the number it denotes. *)
Lemma float_digits s :
  Text.is_empty s = false -> Text.for_all Text.isdigit s = true ->
  PyFloat.float s = Ok (Num (inject_Z (Z.of_N (Text.number s)))).
Proof.
  intros Hne Hall. unfold PyFloat.float.
  rewrite (strip_digits _ Hall).
  destruct s as [|c r]; [discriminate|].
  pose proof Hall as Hall'. simpl in Hall'.
  apply andb_true_iff in Hall' as [Hc Hr].
  rewrite (isdigit_take_sign c r Hc).
  assert (Hnan : (Text.lower (String c r) =? "nan") = false).
  { simpl. rewrite (isdigit_lower _ Hc), (isdigit_not_n _ Hc). reflexivity. }
  rewrite Hnan. unfold PyFloat.decimal_literal.
  rewrite (span_digits_all _ Hall). cbn [Text.is_empty andb PyFloat.exponent].
  rewrite append_empty_r. cbn [String.length Z.of_nat Z.sub Z.opp Z.add Qpower].
  f_equal. f_equal.
  etransitivity; [apply Qred_complete | apply Qred_inject_Z]. ring.
Qed.

End DigitStrings.

Lemma float_of_digits s :
  (if Text.is_empty (Text.digits s) then Ok NaN else PyFloat.float (Text.digits s))
  = Ok (digits_value (Text.digits s)).
Proof.
  unfold digits_value.
  destruct (Text.is_empty (Text.digits s)) eqn:E; [reflexivity|].
  apply float_digits; [assumption | apply digits_all].
Qed.

(** ** Field parsers *)

Section FieldParsers.

Open Scope string_scope.

Lemma parse_term_value v :
  _parse_term v = Ok (if isna v then NaN else digits_value (Text.digits (py_str v))).
Proof.
  unfold _parse_term. destruct (isna v); [reflexivity|].
  apply float_of_digits.
Qed.

Lemma parse_emp_length_value v :
  _parse_emp_length v =
  Ok (if isna v then NaN
      else
        let value := Text.lower (Text.strip (py_str v)) in
        if mem_string value ["10+ years"; "10 years"; "10+"] then Num 10
        else if mem_string value ["< 1 year"; "<1 year"; "<1"] then Num 0
        else digits_value (Text.digits value)).
Proof.
  unfold _parse_emp_length. destruct (isna v); [reflexivity|]. cbv zeta.
  destruct (mem_string _ ["10+ years"; "10 years"; "10+"]); [reflexivity|].
  destruct (mem_string _ ["< 1 year"; "<1 year"; "<1"]); [reflexivity|].
  apply float_of_digits.
Qed.

(** A text with a single run of digits: the digits joined are that
    run, and so is the first digit run. *)
Lemma digits_single_run pre run post :
  Text.digits pre = "" -> Text.digits post = "" ->
  Text.for_all Text.isdigit run = true ->
  Text.digits (pre ++ run ++ post) = run.
Proof.
  unfold Text.digits. intros Hpre Hpost Hrun.
  induction pre as [|c p IH]; simpl in *.
  - induction run as [|d r IHr]; simpl in *; [assumption|].
    apply andb_true_iff in Hrun as [Hd Hr]. rewrite Hd. f_equal. now apply IHr.
  - destruct (Text.isdigit c); [discriminate|]. now apply IH.
Qed.

Lemma first_digit_run_single pre run post :
  Text.digits pre = "" -> Text.digits post = "" ->
  Text.for_all Text.isdigit run = true ->
  first_digit_run (pre ++ run ++ post) = run.
Proof.
  unfold Text.digits. intros Hpre Hpost Hrun.
  assert (Hspan : forall r, Text.for_all Text.isdigit r = true ->
                            fst (Text.span_digits (r ++ post)) = r).
  { induction r as [|d r IHr]; simpl; intros Hr.
    - destruct post as [|e q]; [reflexivity|]. simpl in *.
      destruct (Text.isdigit e); [discriminate|reflexivity].
    - apply andb_true_iff in Hr as [Hd Hr]. rewrite Hd.
      specialize (IHr Hr). destruct (Text.span_digits (r ++ post)). simpl in *.
      now subst. }
  induction pre as [|c p IH]; simpl in *.
  - destruct run as [|d r]; simpl in *.
    + clear Hspan. induction post as [|e q IHq]; simpl in *; [reflexivity|].
      destruct (Text.isdigit e); [discriminate|]. now apply IHq.
    + pose proof Hrun as Hrun'. apply andb_true_iff in Hrun' as [Hd Hr].
      rewrite Hd. specialize (Hspan _ Hr).
      destruct (Text.span_digits (r ++ post)). simpl in *. now subst.
  - destruct (Text.isdigit c); [discriminate|]. now apply IH.
Qed.

(** On a text with a single run of digits the parser as written and
    the parser as worded agree. *)
Lemma parse_term_single_run pre run post :
  Text.digits pre = "" -> Text.digits post = "" ->
  Text.for_all Text.isdigit run = true ->
  _parse_term (Txt (pre ++ run ++ post)) =
  Ok (term_of_leading_run (Txt (pre ++ run ++ post))).
Proof.
  intros Hpre Hpost Hrun. rewrite parse_term_value.
  unfold term_of_leading_run. simpl.
  now rewrite digits_single_run, first_digit_run_single.
Qed.






End FieldParsers.

(** ** Labelled columns: lookup, assignment, row selection *)

Section Frames.

Open Scope string_scope.
Open Scope list_scope.

Lemma mem_string_In c l : mem_string c l = true <-> In c l.
Proof.
  unfold mem_string. rewrite existsb_exists. split.
  - intros [x [Hin Heq]]. apply String.eqb_eq in Heq. now subst.
  - intros Hin. exists c. split; [assumption | apply String.eqb_refl].
Qed.

Lemma mem_string_false c l : mem_string c l = false <-> ~ In c l.
Proof.
  rewrite <- mem_string_In. destruct (mem_string c l); split; congruence.
Qed.

Lemma lookup_update_same c col cols : lookup c (update c col cols) = Some col.
Proof.
  induction cols as [|[k v] rest IH]; simpl.
  - now rewrite String.eqb_refl.
  - destruct (c =? k) eqn:E; simpl; rewrite E; auto.
Qed.

Lemma lookup_update_other c c' col cols :
  c <> c' -> lookup c (update c' col cols) = lookup c cols.
Proof.
  intros N. induction cols as [|[k v] rest IH]; simpl.
  - destruct (String.eqb_spec c c'); congruence.
  - destruct (String.eqb_spec c' k); simpl.
    + subst. destruct (String.eqb_spec c k); congruence.
    + destruct (c =? k); auto.
Qed.

Lemma lookup_none c cols : lookup c cols = None <-> ~ In c (map fst cols).
Proof.
  induction cols as [|[k v] rest IH]; simpl; [tauto|].
  destruct (String.eqb_spec c k).
  - subst. split; [discriminate | intros H; exfalso; auto].
  - rewrite IH. split; [intros H [E|I]; congruence | tauto].
Qed.

Lemma lookup_some_in c col cols : lookup c cols = Some col -> In c (map fst cols).
Proof.
  intros H. destruct (in_dec string_dec c (map fst cols)) as [I|N]; [assumption|].
  apply lookup_none in N. congruence.
Qed.

Lemma update_labels_present c col cols :
  In c (map fst cols) -> map fst (update c col cols) = map fst cols.
Proof.
  induction cols as [|[k v] rest IH]; simpl; [tauto|].
  intros H. destruct (String.eqb_spec c k); simpl; [reflexivity|].
  f_equal. apply IH. destruct H; congruence.
Qed.

Lemma update_labels_absent c col cols :
  ~ In c (map fst cols) -> map fst (update c col cols) = map fst cols ++ [c].
Proof.
  induction cols as [|[k v] rest IH]; simpl; [reflexivity|].
  intros H. destruct (String.eqb_spec c k); simpl; [subst; tauto|].
  f_equal. apply IH. tauto.
Qed.

Lemma lookup_map_values (g : list cell -> list cell) c cols :
  lookup c (map (fun '(k, v) => (k, g v)) cols) = option_map g (lookup c cols).
Proof.
  induction cols as [|[k v] rest IH]; simpl; [reflexivity|].
  destruct (c =? k); auto.
Qed.

Lemma lookup_app c a b :
  lookup c (a ++ b) = match lookup c a with Some col => Some col | None => lookup c b end.
Proof.
  induction a as [|[k v] rest IH]; simpl; [reflexivity|].
  destruct (c =? k); auto.
Qed.

Lemma get_assign_same c col df : get c (assign c col df) = Some col.
Proof. apply lookup_update_same. Qed.

Lemma get_assign_other c c' col df :
  c <> c' -> get c (assign c' col df) = get c df.
Proof. apply lookup_update_other. Qed.

Lemma has_get c df :
  has c df = match get c df with Some _ => true | None => false end.
Proof.
  unfold has, get, labels. destruct (lookup c (data df)) eqn:E.
  - apply mem_string_In. eapply lookup_some_in; eassumption.
  - apply mem_string_false. now apply lookup_none.
Qed.

Lemma labels_assign_present c col col' df :
  get c df = Some col' -> labels (assign c col df) = labels df.
Proof.
  intros H. apply update_labels_present. eapply lookup_some_in; eassumption.
Qed.

(** *** Row masks *)

Lemma keep_nil {A} (m : list bool) : keep m (@nil A) = [].
Proof. destruct m as [|[] m]; reflexivity. Qed.

Lemma keep_map {A B} (f : A -> B) m l : keep m (map f l) = map f (keep m l).
Proof.
  revert l. induction m as [|b m IH]; intros [|x l]; simpl; try reflexivity.
  destruct b; simpl; now rewrite IH.
Qed.

Lemma keep_combine {A B} m (a : list A) (b : list B) :
  keep m (combine a b) = combine (keep m a) (keep m b).
Proof.
  revert a b. induction m as [|x m IH]; intros [|u a] [|v b]; simpl; try reflexivity.
  - destruct x; simpl; [reflexivity|]. now destruct (keep m a).
  - destruct x; simpl; now rewrite IH.
Qed.

Lemma keep_idempotent {A} m (l : list A) : keep (keep m m) (keep m l) = keep m l.
Proof.
  revert l. induction m as [|b m IH]; intros [|x l]; simpl; try reflexivity.
  - now rewrite keep_nil.
  - destruct b; simpl; now rewrite IH.
Qed.

Lemma count_keep m : count_occ bool_dec (keep m m) true = count_occ bool_dec m true.
Proof.
  induction m as [|[] m IH]; simpl; [reflexivity| |]; now rewrite IH.
Qed.

Lemma keep_length {A} m (l : list A) :
  length m = length l -> length (keep m l) = count_occ bool_dec m true.
Proof.
  revert l. induction m as [|b m IH]; intros [|x l]; simpl; try discriminate; auto.
  intros H. injection H as H. destruct b; simpl; now rewrite IH.
Qed.

Lemma keep_repeat {A} m (x : A) n :
  length m = n -> keep m (repeat x n) = repeat x (count_occ bool_dec m true).
Proof.
  revert n. induction m as [|b m IH]; intros [|n]; simpl; try discriminate; auto.
  intros H. injection H as H. destruct b; simpl; now rewrite IH.
Qed.

Lemma keep_all_true {A} m (l : list A) :
  Forall (fun b => b = true) m -> length m = length l -> keep m l = l.
Proof.
  revert l. induction m as [|b m IH]; intros [|x l] F; simpl; try discriminate; auto.
  intros H. injection H as H. inversion F; subst. now rewrite IH.
Qed.

Lemma apply_Ok_length f col ys : apply f col = Ok ys -> length ys = length col.
Proof.
  revert ys. induction col as [|x col IH]; simpl; intros ys H.
  - now injection H as <-.
  - destruct (f x); [|discriminate]. simpl in H.
    destruct (apply f col); [|discriminate]. simpl in H.
    injection H as <-. simpl. now rewrite (IH _ eq_refl).
Qed.

Lemma apply_keep f m col ys :
  apply f col = Ok ys -> apply f (keep m col) = Ok (keep m ys).
Proof.
  revert m ys. induction col as [|x col IH]; simpl; intros m ys H.
  - injection H as <-. now rewrite keep_nil.
  - destruct (f x) eqn:Ex; [|discriminate]. simpl in H.
    destruct (apply f col) eqn:Ec; [|discriminate]. simpl in H.
    injection H as <-. destruct m as [|[] m]; simpl; auto.
    + rewrite Ex. simpl. now rewrite (IH m _ eq_refl).
Qed.

Lemma apply_total f g col :
  (forall v, f v = Ok (g v)) -> apply f col = Ok (map g col).
Proof.
  intros H. induction col as [|x col IH]; simpl; [reflexivity|].
  now rewrite H, IH.
Qed.

Lemma get_select_rows c m df :
  get c (select_rows m df) = option_map (keep m) (get c df).
Proof. apply (lookup_map_values (keep m)). Qed.

Lemma update_map_values (g : list cell -> list cell) c col cols :
  map (fun '(k, v) => (k, g v)) (update c col cols) =
  update c (g col) (map (fun '(k, v) => (k, g v)) cols).
Proof.
  induction cols as [|[k v] rest IH]; simpl; [reflexivity|].
  destruct (c =? k); simpl; [reflexivity|]. now rewrite IH.
Qed.

Lemma select_rows_assign m c col df :
  select_rows m (assign c col df) = assign c (keep m col) (select_rows m df).
Proof.
  unfold select_rows, assign. simpl. f_equal. apply (update_map_values (keep m)).
Qed.

Lemma select_rows_idempotent m df :
  select_rows (keep m m) (select_rows m df) = select_rows m df.
Proof.
  unfold select_rows. simpl. rewrite count_keep. f_equal.
  rewrite map_map. apply map_ext. intros [k v]. now rewrite keep_idempotent.
Qed.

Lemma normalize_select_rows m df :
  _normalize_columns (select_rows m df) = select_rows m (_normalize_columns df).
Proof.
  unfold _normalize_columns, select_rows. simpl. f_equal.
  rewrite !map_map. apply map_ext. now intros [k v].
Qed.

End Frames.

(** ** The identification and imputation loops *)

Section Loops.

Open Scope string_scope.
Open Scope list_scope.

Lemma distinct_NoDup l : distinct l = true -> NoDup l.
Proof.
  induction l as [|x r IH]; simpl; [constructor|].
  intros H. apply andb_true_iff in H as [Hx Hr].
  constructor; [|auto].
  apply mem_string_false. now destruct (mem_string x r).
Qed.

Lemma NoDup_distinct l : NoDup l -> distinct l = true.
Proof.
  induction 1 as [|x r Hx _ IH]; simpl; [reflexivity|].
  apply mem_string_false in Hx. now rewrite Hx, IH.
Qed.

Lemma transform_cons f a rest w :
  transform f (a :: rest) w =
  transform f rest (match get a w with
                    | Some col => assign a (f col) w
                    | None => w
                    end).
Proof. reflexivity. Qed.

Lemma transform_nrows f names w : nrows (transform f names w) = nrows w.
Proof.
  revert w. induction names as [|a rest IH]; intros w; simpl; [reflexivity|].
  rewrite IH. now destruct (get a w).
Qed.

Lemma transform_labels f names w : labels (transform f names w) = labels w.
Proof.
  revert w. induction names as [|a rest IH]; intros w; simpl; [reflexivity|].
  rewrite IH. destruct (get a w) eqn:E; [|reflexivity].
  eapply labels_assign_present; eassumption.
Qed.

Lemma transform_get f names w c :
  NoDup names ->
  get c (transform f names w) =
  if mem_string c names then option_map f (get c w) else get c w.
Proof.
  intros ND. revert w. induction ND as [|a rest Ha ND IH]; intros w; [reflexivity|].
  rewrite transform_cons, IH.
  cbn [mem_string existsb]. fold (mem_string c rest).
  destruct (String.eqb_spec c a) as [->|N]; simpl.
  - apply mem_string_false in Ha. rewrite Ha.
    destruct (get a w) eqn:E; [apply get_assign_same | now rewrite E].
  - destruct (get a w) eqn:E; [rewrite get_assign_other by assumption|]; reflexivity.
Qed.

Lemma has_transform f names w c : has c (transform f names w) = has c w.
Proof. unfold has. now rewrite transform_labels. Qed.

Lemma identify_fold f candidates features w :
  fold_left
    (fun (st : list string * DataFrame) column =>
       let (features, working) := st in
       match get column working with
       | Some col => (features ++ [column], assign column (f col) working)
       | None => st
       end)
    candidates (features, w)
  = (features ++ filter (fun c => has c w) candidates, transform f candidates w).
Proof.
  revert features w. induction candidates as [|a rest IH]; intros features w; simpl.
  - now rewrite app_nil_r.
  - rewrite has_get. destruct (get a w) eqn:E.
    + rewrite IH, <- app_assoc. simpl. f_equal. f_equal. f_equal.
      apply filter_ext. intros c. unfold has.
      now rewrite (labels_assign_present _ _ _ _ E).
    + apply IH.
Qed.

Lemma identify_eq f candidates w :
  identify f candidates w =
  (filter (fun c => has c w) candidates, transform f candidates w).
Proof. apply (identify_fold f candidates [] w). Qed.

Lemma get_select_columns names w c :
  get c (select_columns names w) = if mem_string c names then get c w else None.
Proof.
  unfold get at 1, select_columns. simpl.
  induction names as [|a rest IH]; [reflexivity|].
  cbn [flat_map mem_string existsb]. fold (mem_string c rest).
  rewrite lookup_app.
  destruct (String.eqb_spec c a) as [->|N]; simpl.
  - destruct (get a w) eqn:E; simpl; [now rewrite String.eqb_refl|].
    rewrite IH. now destruct (mem_string a rest).
  - destruct (get a w) eqn:E; simpl; [|apply IH].
    destruct (String.eqb_spec c a); [contradiction | apply IH].
Qed.

Lemma get_concat_columns a b c :
  get c (concat_columns a b) =
  match get c a with Some col => Some col | None => get c b end.
Proof. apply lookup_app. Qed.

Lemma NoDup_NUMERIC_CANDIDATES : NoDup NUMERIC_CANDIDATES.
Proof. apply distinct_NoDup. reflexivity. Qed.

Lemma NoDup_RAW_CATEGORICAL_COLUMNS : NoDup RAW_CATEGORICAL_COLUMNS.
Proof. apply distinct_NoDup. reflexivity. Qed.

Lemma numeric_not_categorical c :
  mem_string c NUMERIC_CANDIDATES = true -> mem_string c RAW_CATEGORICAL_COLUMNS = false.
Proof.
  intros H. apply mem_string_In in H. apply mem_string_false. intros K.
  simpl in H, K.
  repeat (destruct H as [<-|H]; [repeat (destruct K as [K|K]; try discriminate K); exact K|]).
  exact H.
Qed.

Lemma mem_filter c (p : string -> bool) l :
  mem_string c (filter p l) = mem_string c l && p c.
Proof.
  induction l as [|x r IH]; simpl; [reflexivity|].
  destruct (p x) eqn:Px; simpl; rewrite IH.
  - destruct (String.eqb_spec c x) as [->|]; simpl; [now rewrite Px|reflexivity].
  - destruct (String.eqb_spec c x) as [->|]; simpl; [|reflexivity].
    rewrite Px. now rewrite andb_false_r.
Qed.

Lemma numeric_features_eq w :
  numeric_features_of w = filter (fun c => has c w) NUMERIC_CANDIDATES.
Proof. unfold numeric_features_of, identify_numeric. now rewrite identify_eq. Qed.

Lemma categorical_features_eq w :
  categorical_features_of w = filter (fun c => has c w) RAW_CATEGORICAL_COLUMNS.
Proof.
  unfold categorical_features_of, identify_categorical, identify_numeric.
  rewrite !identify_eq. cbn [fst snd]. apply filter_ext. intros c. apply has_transform.
Qed.

Lemma imputed_working_eq w :
  imputed_working w =
  transform impute_categorical_column (categorical_features_of w)
    (transform impute_numeric_column (numeric_features_of w)
       (transform (map normalize_text) RAW_CATEGORICAL_COLUMNS
          (transform to_numeric NUMERIC_CANDIDATES w))).
Proof.
  unfold imputed_working, categorical_features_of, numeric_features_of,
    identify_categorical, identify_numeric.
  rewrite !identify_eq. cbv beta iota. cbn [fst snd]. reflexivity.
Qed.

Lemma imputed_nrows w : nrows (imputed_working w) = nrows w.
Proof. rewrite imputed_working_eq. now rewrite !transform_nrows. Qed.

Lemma imputed_labels w : labels (imputed_working w) = labels w.
Proof. rewrite imputed_working_eq. now rewrite !transform_labels. Qed.

Lemma NoDup_numeric_features w : NoDup (numeric_features_of w).
Proof. rewrite numeric_features_eq. apply NoDup_filter, NoDup_NUMERIC_CANDIDATES. Qed.

Lemma NoDup_categorical_features w : NoDup (categorical_features_of w).
Proof.
  rewrite categorical_features_eq. apply NoDup_filter, NoDup_RAW_CATEGORICAL_COLUMNS.
Qed.

(** A selected numeric column ends up coerced, then filled with its
    own median. *)
Lemma imputed_get_numeric w c :
  mem_string c NUMERIC_CANDIDATES = true ->
  get c (imputed_working w) =
  option_map (fun raw => impute_numeric_column (to_numeric raw)) (get c w).
Proof.
  intros Hc. pose proof (numeric_not_categorical _ Hc) as Hn.
  rewrite imputed_working_eq.
  rewrite (transform_get _ _ _ _ (NoDup_categorical_features w)).
  rewrite categorical_features_eq, mem_filter, Hn. cbn [andb].
  rewrite (transform_get _ _ _ _ (NoDup_numeric_features w)).
  rewrite numeric_features_eq, mem_filter, Hc. cbn [andb].
  rewrite (transform_get _ _ _ _ NoDup_RAW_CATEGORICAL_COLUMNS), Hn.
  rewrite (transform_get _ _ _ _ NoDup_NUMERIC_CANDIDATES), Hc.
  rewrite has_get. now destruct (get c w).
Qed.

(** A selected categorical column ends up normalised, then filled
    with its own most frequent value. *)
Lemma imputed_get_categorical w c :
  mem_string c RAW_CATEGORICAL_COLUMNS = true ->
  get c (imputed_working w) =
  option_map (fun raw => impute_categorical_column (map normalize_text raw)) (get c w).
Proof.
  intros Hc.
  assert (Hn : mem_string c NUMERIC_CANDIDATES = false).
  { destruct (mem_string c NUMERIC_CANDIDATES) eqn:E; [|reflexivity].
    apply numeric_not_categorical in E. congruence. }
  rewrite imputed_working_eq.
  rewrite (transform_get _ _ _ _ (NoDup_categorical_features w)).
  rewrite categorical_features_eq, mem_filter, Hc. cbn [andb].
  rewrite (transform_get _ _ _ _ (NoDup_numeric_features w)).
  rewrite numeric_features_eq, mem_filter, Hn. cbn [andb].
  rewrite (transform_get _ _ _ _ NoDup_RAW_CATEGORICAL_COLUMNS), Hc.
  rewrite (transform_get _ _ _ _ NoDup_NUMERIC_CANDIDATES), Hn.
  rewrite has_get. now destruct (get c w).
Qed.

(** Any other column passes through untouched. *)
Lemma imputed_get_other w c :
  mem_string c NUMERIC_CANDIDATES = false ->
  mem_string c RAW_CATEGORICAL_COLUMNS = false ->
  get c (imputed_working w) = get c w.
Proof.
  intros Hn Hc. rewrite imputed_working_eq.
  rewrite (transform_get _ _ _ _ (NoDup_categorical_features w)).
  rewrite categorical_features_eq, mem_filter, Hc. cbn [andb].
  rewrite (transform_get _ _ _ _ (NoDup_numeric_features w)).
  rewrite numeric_features_eq, mem_filter, Hn. cbn [andb].
  rewrite (transform_get _ _ _ _ NoDup_RAW_CATEGORICAL_COLUMNS), Hc.
  now rewrite (transform_get _ _ _ _ NoDup_NUMERIC_CANDIDATES), Hn.
Qed.

End Loops.

(** ** Composite score *)

Section CompositeScore.

Open Scope string_scope.
Open Scope list_scope.

Lemma combine_map {A B C D} (f : A -> C) (g : B -> D) a b :
  combine (map f a) (map g b) = map (fun p => (f (fst p), g (snd p))) (combine a b).
Proof.
  revert b. induction a as [|x a IH]; intros [|y b]; simpl; try reflexivity.
  now rewrite IH.
Qed.

Lemma half_add_mean a b : half_cell (add_cell a b) = mean_cell a b.
Proof.
  destruct a, b; cbn [half_cell add_cell mean_cell]; try reflexivity. f_equal.
  apply Qred_complete. now rewrite Qred_correct.
Qed.

Lemma to_numeric_cell_cases v :
  to_numeric_cell v = NaN \/ exists q, to_numeric_cell v = Num q.
Proof.
  destruct v as [|s|q|b]; simpl; eauto.
  unfold PyFloat.float. destruct (PyFloat.take_sign _) as [neg body].
  destruct (_ =? "nan"); [now left|].
  destruct (PyFloat.decimal_literal body); eauto.
Qed.

(** C6: with both bound columns present the composite score is, row
    by row, the arithmetic mean of the two coerced bounds (missing
    where either does not coerce to a number); with one bound column
    present it is that bound, coerced; with neither it is missing on
    every row.  Low 700 and high 720 give 710. *)
Theorem build_fico_score_mean_or_single_bound :
  (forall df low high,
      get "fico_range_low" df = Some low ->
      get "fico_range_high" df = Some high ->
      _build_fico_score df =
      map (fun p => mean_cell (to_numeric_cell (fst p)) (to_numeric_cell (snd p)))
          (combine low high)) /\
  (forall df low,
      get "fico_range_low" df = Some low ->
      get "fico_range_high" df = None ->
      _build_fico_score df = map to_numeric_cell low) /\
  (forall df high,
      get "fico_range_low" df = None ->
      get "fico_range_high" df = Some high ->
      _build_fico_score df = map to_numeric_cell high) /\
  (forall df,
      get "fico_range_low" df = None ->
      get "fico_range_high" df = None ->
      _build_fico_score df = repeat NaN (nrows df)) /\
  (forall x y, exists q, mean_cell (Num x) (Num y) = Num q /\ q == (x + y) / 2) /\
  (forall low high, low = NaN \/ high = NaN -> mean_cell low high = NaN) /\
  (forall v, to_numeric_cell v = NaN \/ exists q, to_numeric_cell v = Num q) /\
  to_numeric_cell (Txt "700") = Num 700 /\
  to_numeric_cell (Txt "n/a") = NaN /\
  mean_cell (Num 700) (Num 720) = Num 710.
Proof.
  repeat split.
  - intros df low high Hl Hh. unfold _build_fico_score. rewrite Hl, Hh.
    unfold to_numeric. rewrite combine_map, !map_map.
    apply map_ext. intros [a b]. apply half_add_mean.
  - intros df low Hl Hh. unfold _build_fico_score. now rewrite Hl, Hh.
  - intros df high Hl Hh. unfold _build_fico_score. now rewrite Hl, Hh.
  - intros df Hl Hh. unfold _build_fico_score. now rewrite Hl, Hh.
  - intros x y. eexists. split; [reflexivity | apply Qred_correct].
  - intros low high [-> | ->]; [reflexivity | now destruct low].
  - apply to_numeric_cell_cases.
Qed.

Lemma build_fico_score_examples :
  _build_fico_score
    (mkFrame 1 [("fico_range_low", [Txt "700"]); ("fico_range_high", [Txt "720"])])
  = [Num 710] /\
  _build_fico_score (mkFrame 1 [("fico_range_low", [Txt "700"])]) = [Num 700] /\
  _build_fico_score (mkFrame 1 [("fico_range_high", [Txt "720"])]) = [Num 720] /\
  _build_fico_score (mkFrame 1 [("loan_amnt", [Txt "1000"])]) = [NaN] /\
  mean_cell NaN (Num 720) = NaN.
Proof.
  destruct build_fico_score_mean_or_single_bound
    as (Both & Low & High & Neither & _ & Missing & _).
  split.
  { now rewrite (Both (mkFrame 1 [("fico_range_low", [Txt "700"]);
                                  ("fico_range_high", [Txt "720"])])
                      [Txt "700"] [Txt "720"] eq_refl eq_refl). }
  split.
  { now rewrite (Low (mkFrame 1 [("fico_range_low", [Txt "700"])])
                     [Txt "700"] eq_refl eq_refl). }
  split.
  { now rewrite (High (mkFrame 1 [("fico_range_high", [Txt "720"])])
                      [Txt "720"] eq_refl eq_refl). }
  split.
  { now rewrite (Neither (mkFrame 1 [("loan_amnt", [Txt "1000"])])
                         eq_refl eq_refl). }
  apply Missing. now left.
Defined.

End CompositeScore.

(** ** The feature engineer, stage by stage *)

Section Engineer.

Open Scope string_scope.
Open Scope list_scope.

Ltac distinct_strings :=
  let H := fresh in intro H; apply String.eqb_eq in H; vm_compute in H; discriminate H.

Lemma engineer_features_eq df :
  engineer_features df =
  (w <- derived_numeric_fields (_normalize_columns df) ;;
   let w1 := target_encoding w in
   assemble (numeric_features_of w1)
            (one_hot_encode (categorical_features_of w1) (imputed_working w1))
            (imputed_working w1)).
Proof.
  unfold engineer_features.
  destruct (derived_numeric_fields (_normalize_columns df)) as [w|e]; [|reflexivity].
  simpl. unfold numeric_features_of, categorical_features_of, imputed_working.
  destruct (identify_numeric (target_encoding w)) as [nf w2]. simpl.
  now destruct (identify_categorical w2) as [cf w3].
Qed.

(** *** Deriving fields commutes with selecting rows *)

Lemma derive_nrows src dst parser w w' :
  derive src dst parser w = Ok w' -> nrows w' = nrows w.
Proof.
  unfold derive. destruct (get src w); [|now intros [= <-]].
  destruct (apply parser l); simpl; [now intros [= <-] | discriminate].
Qed.

Lemma derive_get_other src dst parser w w' c :
  derive src dst parser w = Ok w' -> c <> dst -> get c w' = get c w.
Proof.
  unfold derive. destruct (get src w); [|now intros [= <-]].
  destruct (apply parser l); simpl; [|discriminate].
  intros [= <-] N. now apply get_assign_other.
Qed.

Lemma derive_select_rows src dst parser m w w' :
  derive src dst parser w = Ok w' ->
  derive src dst parser (select_rows m w) = Ok (select_rows m w').
Proof.
  unfold derive. rewrite get_select_rows.
  destruct (get src w) as [col|]; simpl; [|now intros [= <-]].
  destruct (apply parser col) as [ys|] eqn:E; simpl; [|discriminate].
  intros [= <-]. rewrite (apply_keep _ m _ _ E). simpl.
  now rewrite select_rows_assign.
Qed.

Lemma build_fico_score_select_rows m w :
  length m = nrows w ->
  _build_fico_score (select_rows m w) = keep m (_build_fico_score w).
Proof.
  intros L. unfold _build_fico_score. rewrite !get_select_rows.
  destruct (get "fico_range_low" w) as [low|],
           (get "fico_range_high" w) as [high|]; simpl.
  - unfold to_numeric. now rewrite !keep_map, keep_combine, !keep_map.
  - unfold to_numeric. now rewrite keep_map.
  - unfold to_numeric. now rewrite keep_map.
  - now rewrite keep_repeat.
Qed.

Lemma derived_nrows w w' : derived_numeric_fields w = Ok w' -> nrows w' = nrows w.
Proof.
  unfold derived_numeric_fields.
  destruct (derive "term" _ _ w) as [w1|] eqn:E1; [simpl|discriminate].
  destruct (derive "emp_length" _ _ w1) as [w2|] eqn:E2; [simpl|discriminate].
  destruct (derive "int_rate" _ _ w2) as [w3|] eqn:E3; [simpl|discriminate].
  destruct (derive "dti" _ _ w3) as [w4|] eqn:E4; [simpl|discriminate].
  intros [= <-]. simpl.
  rewrite (derive_nrows _ _ _ _ _ E4), (derive_nrows _ _ _ _ _ E3),
    (derive_nrows _ _ _ _ _ E2). apply (derive_nrows _ _ _ _ _ E1).
Qed.

Lemma derived_get_target w w' :
  derived_numeric_fields w = Ok w' -> get TARGET_COLUMN w' = get TARGET_COLUMN w.
Proof.
  unfold derived_numeric_fields.
  destruct (derive "term" _ _ w) as [w1|] eqn:E1; [simpl|discriminate].
  destruct (derive "emp_length" _ _ w1) as [w2|] eqn:E2; [simpl|discriminate].
  destruct (derive "int_rate" _ _ w2) as [w3|] eqn:E3; [simpl|discriminate].
  destruct (derive "dti" _ _ w3) as [w4|] eqn:E4; [simpl|discriminate].
  intros [= <-]. rewrite get_assign_other by distinct_strings.
  rewrite (derive_get_other _ _ _ _ _ TARGET_COLUMN E4) by distinct_strings.
  rewrite (derive_get_other _ _ _ _ _ TARGET_COLUMN E3) by distinct_strings.
  rewrite (derive_get_other _ _ _ _ _ TARGET_COLUMN E2) by distinct_strings.
  apply (derive_get_other _ _ _ _ _ TARGET_COLUMN E1). distinct_strings.
Qed.

Lemma derived_select_rows m w w' :
  length m = nrows w ->
  derived_numeric_fields w = Ok w' ->
  derived_numeric_fields (select_rows m w) = Ok (select_rows m w').
Proof.
  intros L. unfold derived_numeric_fields.
  destruct (derive "term" _ _ w) as [w1|] eqn:E1; [simpl|discriminate].
  destruct (derive "emp_length" _ _ w1) as [w2|] eqn:E2; [simpl|discriminate].
  destruct (derive "int_rate" _ _ w2) as [w3|] eqn:E3; [simpl|discriminate].
  destruct (derive "dti" _ _ w3) as [w4|] eqn:E4; [simpl|discriminate].
  intros [= <-].
  rewrite (derive_select_rows _ _ _ m _ _ E1). simpl.
  rewrite (derive_select_rows _ _ _ m _ _ E2). simpl.
  rewrite (derive_select_rows _ _ _ m _ _ E3). simpl.
  rewrite (derive_select_rows _ _ _ m _ _ E4). simpl.
  rewrite select_rows_assign, build_fico_score_select_rows; [reflexivity|].
  rewrite (derive_nrows _ _ _ _ _ E4), (derive_nrows _ _ _ _ _ E3),
    (derive_nrows _ _ _ _ _ E2), (derive_nrows _ _ _ _ _ E1). exact L.
Qed.

(** *** Target encoding *)

Lemma keep_filter {A} (p : A -> bool) l : keep (map p l) l = filter p l.
Proof.
  induction l as [|x l IH]; simpl; [reflexivity|].
  destruct (p x); now rewrite IH.
Qed.

Lemma count_true_filter {A} (p : A -> bool) l :
  count_occ bool_dec (map p l) true = length (filter p l).
Proof.
  induction l as [|x l IH]; simpl; [reflexivity|].
  destruct (p x); simpl; now rewrite IH.
Qed.

Lemma target_encoding_eq w col :
  get TARGET_COLUMN w = Some col ->
  target_encoding w =
  select_rows (map label_is_valid col) (assign TARGET_COLUMN (map encode_label col) w).
Proof.
  intros H. unfold target_encoding. rewrite H, get_assign_same.
  now rewrite map_map.
Qed.

Lemma target_encoding_absent w :
  get TARGET_COLUMN w = None -> target_encoding w = w.
Proof. intros H. unfold target_encoding. now rewrite H. Qed.

Lemma target_encoding_get_target w col :
  get TARGET_COLUMN w = Some col ->
  get TARGET_COLUMN (target_encoding w) =
  Some (map encode_label (filter label_is_valid col)).
Proof.
  intros H. rewrite (target_encoding_eq _ _ H), get_select_rows, get_assign_same.
  simpl. f_equal. now rewrite keep_map, keep_filter.
Qed.

Lemma target_encoding_nrows w col :
  get TARGET_COLUMN w = Some col ->
  nrows (target_encoding w) = length (filter label_is_valid col).
Proof.
  intros H. rewrite (target_encoding_eq _ _ H). simpl. apply count_true_filter.
Qed.

(** Encoding the target of the already filtered batch drops nothing
    more. *)
Lemma target_encoding_select_rows w col :
  get TARGET_COLUMN w = Some col ->
  target_encoding (select_rows (map label_is_valid col) w) = target_encoding w.
Proof.
  intros H. set (m := map label_is_valid col).
  assert (G : get TARGET_COLUMN (select_rows m w) = Some (keep m col))
    by now rewrite get_select_rows, H.
  rewrite (target_encoding_eq _ _ G), (target_encoding_eq _ _ H). fold m.
  assert (M : map label_is_valid (keep m col) = keep m m)
    by (unfold m; now rewrite keep_map).
  rewrite M, <- keep_map, <- select_rows_assign.
  apply select_rows_idempotent.
Qed.

End Engineer.

(** ** Label encoding and the row filter *)

Section LabelFilter.

Open Scope string_scope.
Open Scope list_scope.

Lemma rectangular_get df c col :
  rectangular df = true -> get c df = Some col -> length col = nrows df.
Proof.
  unfold rectangular, get. intros R.
  rewrite forallb_forall in R.
  induction (data df) as [|[k v] rest IH]; simpl; [discriminate|].
  destruct (c =? k).
  - intros [= <-]. apply Nat.eqb_eq. apply (R (k, v)). now left.
  - apply IH. intros x Hx. apply R. now right.
Qed.

Lemma rectangular_normalize df :
  rectangular (_normalize_columns df) = rectangular df.
Proof.
  unfold rectangular, _normalize_columns. simpl.
  induction (data df) as [|[k v] rest IH]; simpl; [reflexivity|].
  now rewrite IH.
Qed.

Lemma encode_label_text s :
  encode_label (Txt s) =
  if Text.lower (Text.strip s) =? "accepted" then Num 1
  else if Text.lower (Text.strip s) =? "rejected" then Num 0
  else NaN.
Proof. reflexivity. Qed.

Lemma encode_label_cases v :
  encode_label v = Num 1 \/ encode_label v = Num 0 \/ encode_label v = NaN.
Proof.
  unfold encode_label, normalize_text, map_label.
  destruct (_ =? "accepted"); [now left|].
  destruct (_ =? "rejected"); [right; now left | right; now right].
Qed.

Lemma astype_int_valid_labels col :
  astype_int (map encode_label (filter label_is_valid col)) =
  Ok (map encode_label (filter label_is_valid col)).
Proof.
  unfold astype_int. induction col as [|v col IH]; cbn [filter map]; [reflexivity|].
  destruct (label_is_valid v) eqn:V; [|exact IH].
  cbn [map apply]. unfold label_is_valid in V.
  destruct (encode_label_cases v) as [E|[E|E]]; rewrite E in *;
    [| |discriminate]; cbn [astype_int_cell bind]; rewrite IH; reflexivity.
Qed.

Lemma target_not_numeric : mem_string TARGET_COLUMN NUMERIC_CANDIDATES = false.
Proof. reflexivity. Qed.

Lemma target_not_categorical : mem_string TARGET_COLUMN RAW_CATEGORICAL_COLUMNS = false.
Proof. reflexivity. Qed.

(** What the engineer returns for a batch with a label column. *)
Lemma engineer_features_labelled df w col out :
  derived_numeric_fields (_normalize_columns df) = Ok w ->
  get TARGET_COLUMN (_normalize_columns df) = Some col ->
  engineer_features df = Ok out ->
  let w1 := target_encoding w in
  out = assign TARGET_COLUMN (map encode_label (filter label_is_valid col))
          (concat_columns
             (select_columns (numeric_features_of w1) (imputed_working w1))
             (one_hot_encode (categorical_features_of w1) (imputed_working w1))).
Proof.
  intros D G E w1. rewrite engineer_features_eq, D in E. simpl in E.
  fold w1 in E. unfold assemble in E.
  rewrite (imputed_get_other _ _ target_not_numeric target_not_categorical) in E.
  unfold w1 in E at 1.
  rewrite (target_encoding_get_target w col) in E
    by (now rewrite (derived_get_target _ _ D)).
  rewrite astype_int_valid_labels in E. simpl in E. now injection E as <-.
Qed.

(** C7: a label is encoded from its trimmed, lower-cased text,
    ["accepted"] to 1 and ["rejected"] to 0; the rows with any other
    label (the missing one included) are dropped, and since this
    happens before features are selected, engineering the batch gives
    exactly what engineering its valid rows alone gives: the dropped
    rows feed neither the medians, nor the modes, nor the one-hot
    levels. *)
Theorem label_filter_precedes_feature_selection :
  (forall s,
      encode_label (Txt s) =
      if Text.lower (Text.strip s) =? "accepted" then Num 1
      else if Text.lower (Text.strip s) =? "rejected" then Num 0
      else NaN) /\
  encode_label NaN = NaN /\
  encode_label (Txt "Accepted") = Num 1 /\
  encode_label (Txt "ACCEPTED ") = Num 1 /\
  encode_label (Txt "rejected") = Num 0 /\
  encode_label (Txt "pending") = NaN /\
  (forall df col out,
      rectangular df = true ->
      get TARGET_COLUMN (_normalize_columns df) = Some col ->
      engineer_features df = Ok out ->
      get TARGET_COLUMN out = Some (map encode_label (filter label_is_valid col)) /\
      nrows out = length (filter label_is_valid col) /\
      engineer_features (valid_rows df) = Ok out).
Proof.
  split; [exact encode_label_text|].
  do 5 (split; [reflexivity|]).
  intros df col out R G E.
  pose proof E as E'. rewrite engineer_features_eq in E'.
  destruct (derived_numeric_fields (_normalize_columns df)) as [w|] eqn:D;
    [|discriminate].
  assert (T : get TARGET_COLUMN w = Some col)
    by (now rewrite (derived_get_target _ _ D)).
  rewrite (engineer_features_labelled _ _ _ _ D G E).
  split; [apply get_assign_same|]. split.
  - simpl. rewrite imputed_nrows. now apply target_encoding_nrows.
  - rewrite engineer_features_eq. unfold valid_rows. rewrite G.
    rewrite normalize_select_rows.
    assert (L : length (map label_is_valid col) = nrows (_normalize_columns df)).
    { rewrite length_map. apply (rectangular_get (_normalize_columns df) TARGET_COLUMN); [|assumption].
      now rewrite rectangular_normalize. }
    rewrite (derived_select_rows _ _ _ L D). cbn [bind]. cbv zeta.
    cbn [bind] in E'. cbv zeta in E'.
    rewrite (target_encoding_select_rows _ _ T).
    rewrite E'. f_equal.
    apply (engineer_features_labelled _ _ _ _ D G E).
Qed.

Lemma label_filter_example :
  exists out,
    engineer_features sample_source = Ok out /\
    get TARGET_COLUMN out = Some [Num 1; Num 0; Num 1] /\
    nrows out = 3%nat /\
    engineer_features (valid_rows sample_source) = Ok out.
Proof.
  destruct label_filter_precedes_feature_selection as (_ & _ & _ & _ & _ & _ & Filter).
  destruct (engineer_features sample_source) as [out|] eqn:E;
    [|vm_compute in E; discriminate E].
  destruct (Filter sample_source
                   [Txt "Accepted"; Txt "rejected"; Txt "pending"; Txt "accepted"]
                   out eq_refl eq_refl E) as (T & N & V).
  exists out. split; [reflexivity|]. split; [exact T|]. split; [exact N | exact V].
Defined.

End LabelFilter.

(** ** Medians, modes and imputation *)

Section Imputation.

Open Scope string_scope.
Open Scope list_scope.

(** *** The median sorts the non-missing values *)

Lemma insert_Q_perm x l : Permutation (insert_Q x l) (x :: l).
Proof.
  induction l as [|y r IH]; simpl; [reflexivity|].
  destruct (Qle_bool x y); [reflexivity|].
  rewrite IH. apply perm_swap.
Qed.

Lemma sort_Q_perm l : Permutation (sort_Q l) l.
Proof.
  induction l as [|x r IH]; simpl; [reflexivity|].
  rewrite insert_Q_perm. now constructor.
Qed.

Lemma Qle_bool_false x y : Qle_bool x y = false -> (y <= x)%Q.
Proof.
  intros H. apply Qlt_le_weak, Qnot_le_lt. intros L.
  apply Qle_bool_iff in L. congruence.
Qed.

Lemma insert_Q_sorted x l : Sorted Qle l -> Sorted Qle (insert_Q x l).
Proof.
  induction 1 as [|y r S IH Hd]; simpl; [repeat constructor|].
  destruct (Qle_bool x y) eqn:E.
  - constructor; [now constructor|]. constructor. now apply Qle_bool_iff.
  - constructor; [assumption|].
    destruct r as [|z r]; simpl in *.
    + constructor. now apply Qle_bool_false.
    + destruct (Qle_bool x z); constructor;
        [now apply Qle_bool_false | now inversion Hd].
Qed.

Lemma sort_Q_sorted l : Sorted Qle (sort_Q l).
Proof.
  induction l as [|x r IH]; simpl; [constructor|]. now apply insert_Q_sorted.
Qed.


Lemma median_no_numbers col : numbers col = [] -> median col = NaN.
Proof. intros H. unfold median. now rewrite H. Qed.

Lemma fillna_NaN col : fillna NaN col = col.
Proof.
  unfold fillna. induction col as [|v col IH]; simpl; [reflexivity|].
  rewrite IH. now destruct v.
Qed.

Lemma to_numeric_no_numbers raw :
  numbers (to_numeric raw) = [] -> to_numeric raw = repeat NaN (length raw).
Proof.
  unfold to_numeric. induction raw as [|v raw IH]; simpl; [reflexivity|].
  destruct (to_numeric_cell_cases v) as [E|[q E]]; rewrite E; simpl.
  - intros H. now rewrite IH.
  - discriminate.
Qed.

(** *** The mode is a most frequent value *)

Lemma In_insert_level v x l : In v (insert_level x l) <-> v = x \/ In v l.
Proof.
  induction l as [|y r IH]; simpl; [intuition congruence|].
  destruct (String.eqb_spec x y) as [->|N]; simpl; [intuition congruence|].
  destruct (x <? y); simpl; [intuition congruence|].
  rewrite IH. intuition congruence.
Qed.

Lemma In_levels v l : In v (levels l) <-> In v l.
Proof.
  induction l as [|x r IH]; simpl; [tauto|].
  rewrite In_insert_level, IH. intuition congruence.
Qed.









End Imputation.

Section ImputedOutput.

Open Scope string_scope.
Open Scope list_scope.

Ltac distinct_strings :=
  let H := fresh in intro H; apply String.eqb_eq in H; vm_compute in H; discriminate H.

Lemma assemble_get nf encoded w out c :
  assemble nf encoded w = Ok out -> c <> TARGET_COLUMN ->
  get c out = get c (concat_columns (select_columns nf w) encoded).
Proof.
  unfold assemble. intros H N.
  destruct (get TARGET_COLUMN w) as [target|].
  - destruct (astype_int target) as [t|]; [|discriminate].
    cbn [bind] in H. injection H as <-. now apply get_assign_other.
  - now injection H as <-.
Qed.

Lemma assemble_nrows nf encoded w out :
  assemble nf encoded w = Ok out -> nrows out = nrows w.
Proof.
  unfold assemble. intros H.
  destruct (get TARGET_COLUMN w) as [target|].
  - destruct (astype_int target) as [t|]; [|discriminate].
    cbn [bind] in H. now injection H as <-.
  - now injection H as <-.
Qed.

Lemma numeric_not_target c :
  mem_string c NUMERIC_CANDIDATES = true -> c <> TARGET_COLUMN.
Proof. intros H ->. discriminate H. Qed.

(** A selected numeric column of the engineered batch is the coerced
    column of the filtered working frame, filled with its median. *)
Lemma engineered_numeric_column df w out c raw :
  derived_numeric_fields (_normalize_columns df) = Ok w ->
  engineer_features df = Ok out ->
  mem_string c NUMERIC_CANDIDATES = true ->
  get c (target_encoding w) = Some raw ->
  get c out = Some (impute_numeric_column (to_numeric raw)).
Proof.
  intros D E Hc G. rewrite engineer_features_eq, D in E.
  cbn [bind] in E. cbv zeta in E.
  rewrite (assemble_get _ _ _ _ c E (numeric_not_target _ Hc)).
  rewrite get_concat_columns, get_select_columns.
  rewrite numeric_features_eq, mem_filter, Hc, has_get, G. cbn [andb].
  now rewrite (imputed_get_numeric _ _ Hc), G.
Qed.

Lemma engineered_nrows df w out :
  derived_numeric_fields (_normalize_columns df) = Ok w ->
  engineer_features df = Ok out ->
  nrows out = nrows (target_encoding w).
Proof.
  intros D E. rewrite engineer_features_eq, D in E.
  cbn [bind] in E. cbv zeta in E.
  rewrite (assemble_nrows _ _ _ _ E). apply imputed_nrows.
Qed.



End ImputedOutput.

Section AllMissing.

Open Scope string_scope.
Open Scope list_scope.

Ltac distinct_strings :=
  let H := fresh in intro H; apply String.eqb_eq in H; vm_compute in H; discriminate H.

Lemma impute_all_missing raw :
  numbers (to_numeric raw) = [] ->
  impute_numeric_column (to_numeric raw) = repeat NaN (length raw).
Proof.
  intros H. unfold impute_numeric_column.
  rewrite (median_no_numbers _ H), fillna_NaN. now apply to_numeric_no_numbers.
Qed.

Lemma numbers_repeat_NaN n : numbers (to_numeric (repeat NaN n)) = [].
Proof. induction n; simpl; auto. Qed.

(** Without bound columns the derived score column is missing on
    every row. *)
Lemma derived_fico_without_bounds w0 w :
  get "fico_range_low" w0 = None -> get "fico_range_high" w0 = None ->
  derived_numeric_fields w0 = Ok w ->
  get "fico_score" w = Some (repeat NaN (nrows w0)).
Proof.
  intros Hl Hh. unfold derived_numeric_fields.
  destruct (derive "term" _ _ w0) as [w1|] eqn:E1; [cbn [bind]|discriminate].
  destruct (derive "emp_length" _ _ w1) as [w2|] eqn:E2; [cbn [bind]|discriminate].
  destruct (derive "int_rate" _ _ w2) as [w3|] eqn:E3; [cbn [bind]|discriminate].
  destruct (derive "dti" _ _ w3) as [w4|] eqn:E4; [cbn [bind]|discriminate].
  intros [= <-]. rewrite get_assign_same. f_equal.
  unfold _build_fico_score.
  rewrite (derive_get_other _ _ _ _ _ "fico_range_low" E4) by distinct_strings.
  rewrite (derive_get_other _ _ _ _ _ "fico_range_low" E3) by distinct_strings.
  rewrite (derive_get_other _ _ _ _ _ "fico_range_low" E2) by distinct_strings.
  rewrite (derive_get_other _ _ _ _ _ "fico_range_low" E1) by distinct_strings.
  rewrite (derive_get_other _ _ _ _ _ "fico_range_high" E4) by distinct_strings.
  rewrite (derive_get_other _ _ _ _ _ "fico_range_high" E3) by distinct_strings.
  rewrite (derive_get_other _ _ _ _ _ "fico_range_high" E2) by distinct_strings.
  rewrite (derive_get_other _ _ _ _ _ "fico_range_high" E1) by distinct_strings.
  rewrite Hl, Hh.
  now rewrite (derive_nrows _ _ _ _ _ E4), (derive_nrows _ _ _ _ _ E3),
    (derive_nrows _ _ _ _ _ E2), (derive_nrows _ _ _ _ _ E1).
Qed.

Lemma keep_repeat_any {A} m (x : A) n : exists k, keep m (repeat x n) = repeat x k.
Proof.
  revert n. induction m as [|b m IH]; intros [|n]; simpl; try (now exists 0%nat).
  destruct (IH n) as [k E]. rewrite E.
  destruct b; [now exists (S k) | now exists k].
Qed.

(** C10: a selected numeric column with no value that coerces to a
    number has the missing marker for median, so filling changes
    nothing and the column leaves the engineer missing on every row;
    this is what happens to the composite score when the batch has
    neither bound column. *)
Theorem all_missing_numeric_column_stays_missing :
  (forall col, numbers col = [] -> median col = NaN) /\
  (forall col, fillna NaN col = col) /\
  (forall df w out c raw,
      derived_numeric_fields (_normalize_columns df) = Ok w ->
      engineer_features df = Ok out ->
      In c NUMERIC_CANDIDATES ->
      get c (target_encoding w) = Some raw ->
      numbers (to_numeric raw) = [] ->
      get c out = Some (repeat NaN (length raw))) /\
  (forall df out,
      get "fico_range_low" (_normalize_columns df) = None ->
      get "fico_range_high" (_normalize_columns df) = None ->
      engineer_features df = Ok out ->
      exists k, get "fico_score" out = Some (repeat NaN k)).
Proof.
  split; [exact median_no_numbers|]. split; [exact fillna_NaN|]. split.
  - intros df w out c raw D E Hc G N. apply mem_string_In in Hc.
    rewrite (engineered_numeric_column df w out c raw D E Hc G).
    f_equal. now apply impute_all_missing.
  - intros df out Hl Hh E. pose proof E as E'.
    rewrite engineer_features_eq in E'.
    destruct (derived_numeric_fields (_normalize_columns df)) as [w|] eqn:D;
      [|discriminate]. clear E'.
    pose proof (derived_fico_without_bounds _ _ Hl Hh D) as F.
    assert (G : exists k, get "fico_score" (target_encoding w) = Some (repeat NaN k)).
    { destruct (get TARGET_COLUMN w) as [col|] eqn:T.
      - rewrite (target_encoding_eq _ _ T), get_select_rows.
        rewrite (get_assign_other "fico_score" TARGET_COLUMN) by distinct_strings.
        rewrite F. cbn [option_map].
        destruct (keep_repeat_any (map label_is_valid col) NaN
                                  (nrows (_normalize_columns df))) as [k K].
        exists k. now rewrite K.
      - rewrite (target_encoding_absent _ T). eauto. }
    destruct G as [k G]. exists k.
    rewrite (engineered_numeric_column df w out "fico_score" _ D E eq_refl G).
    f_equal. rewrite impute_all_missing by apply numbers_repeat_NaN.
    now rewrite repeat_length.
Qed.

Lemma all_missing_example :
  exists out,
    engineer_features imputation_example = Ok out /\
    (exists k, get "fico_score" out = Some (repeat NaN k)) /\
    median [NaN; NaN] = NaN.
Proof.
  destruct all_missing_numeric_column_stays_missing as (Median & _ & _ & Fico).
  destruct (engineer_features imputation_example) as [out|] eqn:E;
    [|vm_compute in E; discriminate E].
  exists out. split; [reflexivity|].
  split; [|apply Median; reflexivity].
  exact (Fico imputation_example out eq_refl eq_refl E).
Defined.

End AllMissing.

(** ** Schema reconciliation *)

Section Reconciliation.

Open Scope string_scope.
Open Scope list_scope.

Lemma lookup_tabulate (F : string -> list cell) schema c :
  lookup c (map (fun c => (c, F c)) schema) =
  if mem_string c schema then Some (F c) else None.
Proof.
  induction schema as [|a rest IH]; [reflexivity|].
  cbn [map lookup mem_string existsb]. fold (mem_string c rest).
  destruct (String.eqb_spec c a) as [->|N]; [reflexivity|]. exact IH.
Qed.

Lemma labels_tabulate (F : string -> list cell) schema :
  map fst (map (fun c => (c, F c)) schema) = schema.
Proof. rewrite map_map. simpl. apply map_id. Qed.

Lemma same_labels_eq a b : same_labels a b = true -> a = b.
Proof. unfold same_labels. now destruct (list_eq_dec string_dec a b). Qed.

Lemma get_in_labels c df col : get c df = Some col -> In c (labels df).
Proof. apply lookup_some_in. Qed.

Lemma get_not_in_labels c df : ~ In c (labels df) -> get c df = None.
Proof. apply lookup_none. Qed.

(** Whatever [reindex] returns is laid out as the schema asks. *)
Lemma reindex_Ok schema df r :
  reindex schema df = Ok r ->
  labels r = schema /\
  nrows r = nrows df /\
  (forall c col, In c schema -> get c df = Some col -> get c r = Some col) /\
  (forall c, In c schema -> get c df = None ->
             get c r = Some (repeat (Num 0) (nrows df))) /\
  (forall c, ~ In c schema -> get c r = None).
Proof.
  unfold reindex. destruct (same_labels (labels df) schema) eqn:S.
  - intros [= <-]. apply same_labels_eq in S. subst schema.
    split; [reflexivity|]. split; [reflexivity|]. split; [auto|]. split.
    + intros c Hin Hnone. apply lookup_none in Hnone. contradiction.
    + intros c. apply get_not_in_labels.
  - destruct (distinct (labels df)); cbn [negb]; [|discriminate].
    intros [= <-]. unfold labels, get. cbn [data nrows].
    split; [apply labels_tabulate|]. split; [reflexivity|].
    split; [|split].
    + intros c col Hin G. rewrite lookup_tabulate.
      apply mem_string_In in Hin. rewrite Hin. unfold get. now rewrite G.
    + intros c Hin G. rewrite lookup_tabulate.
      apply mem_string_In in Hin. rewrite Hin. unfold get. now rewrite G.
    + intros c Hin. rewrite lookup_tabulate.
      apply mem_string_false in Hin. now rewrite Hin.
Qed.

Lemma reindex_distinct schema df :
  distinct (labels df) = true -> exists r, reindex schema df = Ok r.
Proof.
  intros D. unfold reindex. rewrite D.
  destruct (same_labels (labels df) schema); cbn [negb]; eauto.
Qed.

(** *** The chunk loop *)

Lemma process_chunks_output schema reader file total :
  output (process_chunks schema reader file total) =
  file ++ map Row (rows_of (appended schema reader)).
Proof.
  revert file total. induction reader as [|chunk reader IH]; intros file total.
  - simpl. now rewrite app_nil_r.
  - cbn [process_chunks appended].
    destruct (engineer_features chunk) as [e|]; [|simpl; now rewrite app_nil_r].
    destruct (empty e); [apply IH|].
    destruct (reindex schema e) as [r|]; [|simpl; now rewrite app_nil_r].
    rewrite IH. unfold to_csv_append, rows_of. cbn [flat_map].
    now rewrite map_app, app_assoc.
Qed.

Lemma process_chunks_total schema reader file total :
  total_rows_processed (process_chunks schema reader file total) =
  (total + list_sum (map nrows (appended schema reader)))%nat.
Proof.
  revert file total. induction reader as [|chunk reader IH]; intros file total.
  - simpl. lia.
  - cbn [process_chunks appended].
    destruct (engineer_features chunk) as [e|]; [|simpl; lia].
    destruct (empty e); [apply IH|].
    destruct (reindex schema e) as [r|]; [|simpl; lia].
    rewrite IH. simpl. lia.
Qed.

Lemma appended_labels schema reader :
  Forall (fun f => labels f = schema) (appended schema reader).
Proof.
  induction reader as [|chunk reader IH]; [constructor|].
  cbn [appended]. destruct (engineer_features chunk) as [e|]; [|constructor].
  destruct (empty e); [exact IH|].
  destruct (reindex schema e) as [r|] eqn:R; [|constructor].
  constructor; [|exact IH]. now apply reindex_Ok in R.
Qed.

Lemma row_at_length df i : length (row_at df i) = length (labels df).
Proof. unfold row_at, labels. now rewrite !length_map. Qed.

Lemma to_rows_length df : length (to_rows df) = nrows df.
Proof. unfold to_rows. now rewrite length_map, length_seq. Qed.

Lemma to_rows_width df :
  Forall (fun row => length row = length (labels df)) (to_rows df).
Proof.
  unfold to_rows. apply Forall_forall. intros row Hin.
  apply in_map_iff in Hin as [i [<- _]]. apply row_at_length.
Qed.

Lemma rows_of_width schema frames :
  Forall (fun f => labels f = schema) frames ->
  Forall (fun row => length row = length schema) (rows_of frames).
Proof.
  induction 1 as [|f frames Hf _ IH]; [constructor|].
  unfold rows_of. cbn [flat_map]. apply Forall_app. split; [|exact IH].
  rewrite <- Hf. apply to_rows_width.
Qed.

End Reconciliation.

(** ** The driver *)

Section Driver.

Open Scope string_scope.
Open Scope list_scope.



Lemma sample_schema source sample_rows engineered_sample schema :
  engineer_sample_and_get_schema source sample_rows = Ok (engineered_sample, schema) ->
  engineer_features (read_csv_nrows sample_rows source) = Ok engineered_sample /\
  schema = labels engineered_sample.
Proof.
  unfold engineer_sample_and_get_schema.
  destruct (engineer_features (read_csv_nrows sample_rows source)) as [e|];
    cbn [bind]; [|discriminate].
  now intros [= <- <-].
Qed.

(** C2: once the sample has been engineered, the output file is one
    header line equal to the canonical schema (the labels of the
    engineered sample), then the sample's rows, then the rows of the
    appended frames and no further header; every appended frame
    carries the schema's labels in order and every row has as many
    cells as the schema has columns. *)
Theorem output_has_one_header_then_schema_rows
        source sample_rows chunk_size engineered_sample schema :
  engineer_sample_and_get_schema source sample_rows = Ok (engineered_sample, schema) ->
  exists frames,
    output (process_full_dataset_chunked source sample_rows chunk_size) =
    Header schema :: map Row (to_rows engineered_sample ++ rows_of frames) /\
    schema = labels engineered_sample /\
    Forall (fun f => labels f = schema) frames /\
    Forall (fun row => length row = length schema)
           (to_rows engineered_sample ++ rows_of frames).
Proof.
  intros H. destruct (sample_schema _ _ _ _ H) as [_ S].
  unfold process_full_dataset_chunked. rewrite H. subst schema.
  assert (W : forall frames,
             Forall (fun f => labels f = labels engineered_sample) frames ->
             Forall (fun row => length row = length (labels engineered_sample))
                    (to_rows engineered_sample ++ rows_of frames)).
  { intros frames F. apply Forall_app. split.
    - apply to_rows_width.
    - now apply rows_of_width. }
  destruct (read_csv_chunks sample_rows chunk_size source) as [reader|].
  - exists (appended (labels engineered_sample) reader).
    rewrite process_chunks_output. unfold to_csv.
    split; [cbn [app]; now rewrite map_app|].
    split; [reflexivity|]. split; [apply appended_labels|].
    apply W, appended_labels.
  - exists []. cbn [output]. unfold to_csv, rows_of. cbn [flat_map].
    rewrite app_nil_r.
    split; [reflexivity|]. split; [reflexivity|]. split; [constructor|].
    apply to_rows_width.
Qed.

Lemma output_example :
  exists engineered_sample schema frames,
    engineer_sample_and_get_schema sample_source 2 = Ok (engineered_sample, schema) /\
    output (process_full_dataset_chunked sample_source 2 1) =
    Header schema :: map Row (to_rows engineered_sample ++ rows_of frames).
Proof.
  destruct (engineer_sample_and_get_schema sample_source 2)
    as [[engineered_sample schema]|] eqn:E; [|vm_compute in E; discriminate E].
  destruct (output_has_one_header_then_schema_rows sample_source 2 1 _ _ E)
    as (frames & O & _).
  exists engineered_sample, schema, frames. split; [reflexivity | exact O].
Defined.

(** C9: a chunk whose engineered result is empty leaves the file and
    the running total as they were, raises nothing, and the loop goes
    on with the next chunk; a chunk whose labels are all invalid is
    such a chunk. *)
Theorem empty_engineered_chunk_is_skipped :
  (forall schema chunk reader file total engineered_chunk,
      engineer_features chunk = Ok engineered_chunk ->
      empty engineered_chunk = true ->
      process_chunks schema (chunk :: reader) file total =
      process_chunks schema reader file total) /\
  (forall chunk col engineered_chunk,
      get TARGET_COLUMN (_normalize_columns chunk) = Some col ->
      filter label_is_valid col = [] ->
      engineer_features chunk = Ok engineered_chunk ->
      empty engineered_chunk = true).
Proof.
  split.
  - intros schema chunk reader file total e E Em.
    cbn [process_chunks]. now rewrite E, Em.
  - intros chunk col e G F E. pose proof E as E'.
    rewrite engineer_features_eq in E'.
    destruct (derived_numeric_fields (_normalize_columns chunk)) as [w|] eqn:D;
      [|discriminate]. clear E'.
    unfold empty. rewrite (engineered_nrows _ _ _ D E).
    rewrite (target_encoding_nrows w col), F; [reflexivity|].
    now rewrite (derived_get_target _ _ D).
Qed.

Lemma skipped_chunk_example :
  process_chunks ["loan_amnt"; "fico_score"; "loan_status"] [pending_chunk]
                 [Header ["loan_amnt"; "fico_score"; "loan_status"]] 0 =
  mkRun [Header ["loan_amnt"; "fico_score"; "loan_status"]] 0 None.
Proof.
  destruct empty_engineered_chunk_is_skipped as [Skip Empty].
  destruct (engineer_features pending_chunk) as [e|] eqn:E;
    [|vm_compute in E; discriminate E].
  rewrite (Skip _ pending_chunk [] _ _ e E); [reflexivity|].
  apply (Empty pending_chunk [Txt "pending"] e); [reflexivity | reflexivity | exact E].
Defined.

End Driver.

(** * Further properties of the code *)

(** ** Percent signs, reconciliation twice, row totals *)

Section MoreParsers.

Open Scope string_scope.
Open Scope list_scope.

Lemma filter_chars_app p a b :
  Text.filter_chars p (a ++ b)%string =
  (Text.filter_chars p a ++ Text.filter_chars p b)%string.
Proof.
  induction a as [|c a IH]; simpl; [reflexivity|].
  destruct (p c); simpl; now rewrite IH.
Qed.

(** The percentage parser drops every percent sign, wherever it
    stands, before it reads the number. *)
Theorem parse_percentage_ignores_percent_signs a b :
  _parse_percentage (Txt (a ++ "%" ++ b)%string) = _parse_percentage (Txt (a ++ b)%string).
Proof.
  unfold _parse_percentage. cbn [isna py_str]. unfold Text.remove_percent.
  now rewrite !filter_chars_app.
Qed.

End MoreParsers.

Section MoreReconciliation.

Open Scope string_scope.
Open Scope list_scope.

Lemma same_labels_refl a : same_labels a a = true.
Proof. unfold same_labels. now destruct (list_eq_dec string_dec a a). Qed.

(** Reconciling a reconciled batch again gives it back unchanged. *)
Theorem reindex_idempotent schema df r :
  reindex schema df = Ok r -> reindex schema r = Ok r.
Proof.
  intros H. apply reindex_Ok in H as [L _].
  unfold reindex. now rewrite L, same_labels_refl.
Qed.

Lemma reindex_idempotent_example :
  exists r,
    reindex ["loan_amnt"; "purpose_car"] (mkFrame 1 [("loan_amnt", [Num 5])]) = Ok r /\
    reindex ["loan_amnt"; "purpose_car"] r = Ok r.
Proof.
  exists (mkFrame 1 [("loan_amnt", [Num 5]); ("purpose_car", [Num 0])]).
  split; [reflexivity|].
  apply (reindex_idempotent ["loan_amnt"; "purpose_car"]
                            (mkFrame 1 [("loan_amnt", [Num 5])])).
  reflexivity.
Defined.

Lemma rows_of_length frames :
  length (rows_of frames) = list_sum (map nrows frames).
Proof.
  unfold rows_of. induction frames as [|f frames IH]; [reflexivity|].
  cbn [flat_map map list_sum]. now rewrite length_app, to_rows_length, IH.
Qed.

(** The running total is exact: the chunk loop adds to the total as
    many rows as it appends lines to the file, whether it completes or
    is aborted by an exception; and a run that got past the sample ends
    with a file of one header line and exactly [total_rows_processed]
    rows. *)
Theorem total_counts_the_rows_written :
  (forall schema reader file total,
      (length (output (process_chunks schema reader file total)) + total =
       length file + total_rows_processed (process_chunks schema reader file total))%nat) /\
  (forall source sample_rows chunk_size engineered_sample schema,
      engineer_sample_and_get_schema source sample_rows = Ok (engineered_sample, schema) ->
      length (output (process_full_dataset_chunked source sample_rows chunk_size)) =
      S (total_rows_processed (process_full_dataset_chunked source sample_rows chunk_size))).
Proof.
  assert (Loop : forall schema reader file total,
             (length (output (process_chunks schema reader file total)) + total =
              length file + total_rows_processed (process_chunks schema reader file total))%nat).
  { intros schema reader file total.
    rewrite process_chunks_output, process_chunks_total.
    rewrite length_app, length_map, rows_of_length. lia. }
  split; [exact Loop|].
  intros source sample_rows chunk_size e schema H.
  unfold process_full_dataset_chunked. rewrite H.
  assert (F : length (to_csv e) = S (nrows e)).
  { unfold to_csv. cbn [length]. now rewrite length_map, to_rows_length. }
  destruct (read_csv_chunks sample_rows chunk_size source) as [reader|].
  - specialize (Loop schema reader (to_csv e) (nrows e)). rewrite F in Loop. lia.
  - exact F.
Qed.

Lemma total_counts_example :
  length (output (process_full_dataset_chunked sample_source 2 1)) =
  S (total_rows_processed (process_full_dataset_chunked sample_source 2 1)).
Proof.
  destruct (engineer_sample_and_get_schema sample_source 2)
    as [[engineered_sample schema]|] eqn:E; [|vm_compute in E; discriminate E].
  exact (proj2 total_counts_the_rows_written sample_source 2%nat 1%nat _ _ E).
Defined.

End MoreReconciliation.

(** ** The layout of an engineered batch *)

Section Layout.

Open Scope string_scope.
Open Scope list_scope.

Ltac distinct_strings :=
  let H := fresh in intro H; apply String.eqb_eq in H; vm_compute in H; discriminate H.

Lemma labels_select_rows m df : labels (select_rows m df) = labels df.
Proof.
  unfold labels, select_rows. cbn [data]. rewrite map_map.
  apply map_ext. now intros [k v].
Qed.

Lemma labels_target_encoding w : labels (target_encoding w) = labels w.
Proof.
  unfold target_encoding. destruct (get TARGET_COLUMN w) as [col|] eqn:G; [|reflexivity].
  rewrite labels_select_rows. eapply labels_assign_present; eassumption.
Qed.

Lemma has_target_encoding c w : has c (target_encoding w) = has c w.
Proof. unfold has. now rewrite labels_target_encoding. Qed.

Lemma has_imputed c w : has c (imputed_working w) = has c w.
Proof. unfold has. now rewrite imputed_labels. Qed.

Lemma labels_select_columns names w :
  Forall (fun c => has c w = true) names -> labels (select_columns names w) = names.
Proof.
  unfold labels, select_columns. cbn [data].
  induction 1 as [|c names Hc _ IH]; [reflexivity|].
  cbn [flat_map]. rewrite has_get in Hc.
  destruct (get c w); [|discriminate]. cbn [app map fst]. now rewrite IH.
Qed.

Lemma labels_concat_columns a b :
  labels (concat_columns a b) = labels a ++ labels b.
Proof. unfold labels, concat_columns. cbn [data]. apply map_app. Qed.

Lemma labels_assign_absent c col df :
  ~ In c (labels df) -> labels (assign c col df) = labels df ++ [c].
Proof. apply update_labels_absent. Qed.

Lemma labels_dummies_of prefix col :
  map fst (dummies_of prefix col) = dummy_labels prefix col.
Proof. unfold dummies_of, dummy_labels. rewrite map_map. reflexivity. Qed.

Lemma labels_one_hot_encode cf w :
  labels (one_hot_encode cf w) =
  flat_map (fun c => match get c w with
                     | Some col => dummy_labels c col
                     | None => []
                     end) cf.
Proof.
  unfold labels, one_hot_encode. cbn [data].
  induction cf as [|c cf IH]; [reflexivity|].
  cbn [flat_map]. rewrite map_app, IH. f_equal.
  destruct (get c w); [apply labels_dummies_of | reflexivity].
Qed.

Lemma starts_with_append p rest : starts_with p (String.append p rest) = true.
Proof.
  induction p as [|c p IH]; [reflexivity|].
  cbn [String.append starts_with]. now rewrite Ascii.eqb_refl.
Qed.

Lemma append_assoc a b c :
  String.append (String.append a b) c = String.append a (String.append b c).
Proof. induction a as [|x a IH]; cbn; [reflexivity | now rewrite IH]. Qed.

Lemma dummy_label_prefix prefix col lbl :
  In lbl (dummy_labels prefix col) ->
  starts_with (String.append prefix "_") lbl = true.
Proof.
  unfold dummy_labels. intros H. apply in_map_iff in H as [v [<- _]].
  change (String "_" v) with (String.append "_" v).
  rewrite <- append_assoc. apply starts_with_append.
Qed.

(** No indicator column is labelled like the target. *)
Lemma target_not_a_dummy cf w :
  Forall (fun c => In c RAW_CATEGORICAL_COLUMNS) cf ->
  ~ In TARGET_COLUMN (labels (one_hot_encode cf w)).
Proof.
  intros F H. rewrite labels_one_hot_encode in H.
  apply in_flat_map in H as [c [Hc H]].
  rewrite Forall_forall in F. specialize (F c Hc).
  destruct (get c w) as [col|]; [|exact H].
  apply dummy_label_prefix in H.
  cbn in F. repeat (destruct F as [<-|F]; [discriminate H|]). exact F.
Qed.

Lemma categorical_features_in w :
  Forall (fun c => In c RAW_CATEGORICAL_COLUMNS) (categorical_features_of w).
Proof.
  rewrite categorical_features_eq. apply Forall_forall. intros c H.
  now apply filter_In in H.
Qed.

Lemma numeric_features_present w :
  Forall (fun c => has c (imputed_working w) = true) (numeric_features_of w).
Proof.
  rewrite numeric_features_eq. apply Forall_forall. intros c H.
  apply filter_In in H as [_ H]. now rewrite has_imputed.
Qed.

Lemma numeric_features_not_target w : ~ In TARGET_COLUMN (numeric_features_of w).
Proof.
  rewrite numeric_features_eq. intros H. apply filter_In in H as [H _].
  apply mem_string_In in H. discriminate H.
Qed.

Lemma derived_has_fico w0 w :
  derived_numeric_fields w0 = Ok w -> has "fico_score" w = true.
Proof.
  unfold derived_numeric_fields.
  destruct (derive "term" _ _ w0) as [w1|]; [cbn [bind]|discriminate].
  destruct (derive "emp_length" _ _ w1) as [w2|]; [cbn [bind]|discriminate].
  destruct (derive "int_rate" _ _ w2) as [w3|]; [cbn [bind]|discriminate].
  destruct (derive "dti" _ _ w3) as [w4|]; [cbn [bind]|discriminate].
  intros [= <-]. now rewrite has_get, get_assign_same.
Qed.

(** The labels of an engineered batch, in order. *)
Lemma engineered_labels_eq df out :
  engineer_features df = Ok out ->
  exists w,
    derived_numeric_fields (_normalize_columns df) = Ok w /\
    labels out =
      filter (fun c => has c w) NUMERIC_CANDIDATES ++
      flat_map (fun c => match get c (imputed_working (target_encoding w)) with
                         | Some col => dummy_labels c col
                         | None => []
                         end)
               (filter (fun c => has c w) RAW_CATEGORICAL_COLUMNS) ++
      (if has TARGET_COLUMN w then [TARGET_COLUMN] else []).
Proof.
  intros E. pose proof E as E'. rewrite engineer_features_eq in E'.
  destruct (derived_numeric_fields (_normalize_columns df)) as [w|] eqn:D;
    [|discriminate].
  cbn [bind] in E'. cbv zeta in E'. exists w. split; [reflexivity|].
  set (w1 := target_encoding w) in *.
  assert (NF : numeric_features_of w1 = filter (fun c => has c w) NUMERIC_CANDIDATES).
  { rewrite numeric_features_eq. apply filter_ext. intros c. apply has_target_encoding. }
  assert (CF : categorical_features_of w1 =
               filter (fun c => has c w) RAW_CATEGORICAL_COLUMNS).
  { rewrite categorical_features_eq. apply filter_ext. intros c. apply has_target_encoding. }
  assert (FP : labels (concat_columns
                         (select_columns (numeric_features_of w1) (imputed_working w1))
                         (one_hot_encode (categorical_features_of w1) (imputed_working w1)))
               = numeric_features_of w1 ++
                 labels (one_hot_encode (categorical_features_of w1) (imputed_working w1))).
  { rewrite labels_concat_columns.
    now rewrite (labels_select_columns _ _ (numeric_features_present w1)). }
  assert (HT : has TARGET_COLUMN (imputed_working w1) = has TARGET_COLUMN w)
    by (unfold w1; now rewrite has_imputed, has_target_encoding).
  assert (L : labels out =
              numeric_features_of w1 ++
              labels (one_hot_encode (categorical_features_of w1) (imputed_working w1)) ++
              (if has TARGET_COLUMN w then [TARGET_COLUMN] else [])).
  { unfold assemble in E'. rewrite has_get in HT.
    destruct (get TARGET_COLUMN (imputed_working w1)) as [target|].
    - destruct (astype_int target) as [t|]; [|discriminate].
      cbn [bind] in E'. injection E' as <-. rewrite <- HT.
      rewrite labels_assign_absent; [now rewrite FP, <- app_assoc|].
      rewrite FP. intros H. apply in_app_or in H as [H|H].
      + now apply numeric_features_not_target in H.
      + revert H. apply target_not_a_dummy, categorical_features_in.
    - injection E' as <-. rewrite <- HT, FP. now rewrite app_nil_r. }
  rewrite labels_one_hot_encode, NF, CF in L.
  exact L.
Qed.

(** The columns of an engineered batch, in order: the numeric
    candidates the batch has, in the order of the configuration; then,
    for each categorical column the batch has, one indicator per
    distinct value; then the target, when the batch has one.  The
    composite score is always among the numeric columns, so an
    engineered batch is empty exactly when it has no row. *)
Theorem engineered_batch_layout df out :
  engineer_features df = Ok out ->
  exists w,
    derived_numeric_fields (_normalize_columns df) = Ok w /\
    labels out =
      filter (fun c => has c w) NUMERIC_CANDIDATES ++
      flat_map (fun c => match get c (imputed_working (target_encoding w)) with
                         | Some col => dummy_labels c col
                         | None => []
                         end)
               (filter (fun c => has c w) RAW_CATEGORICAL_COLUMNS) ++
      (if has TARGET_COLUMN w then [TARGET_COLUMN] else []) /\
    In "fico_score" (labels out) /\
    empty out = (nrows out =? 0)%nat.
Proof.
  intros E. destruct (engineered_labels_eq df out E) as (w & D & L).
  exists w. split; [exact D|]. split; [exact L|].
  assert (I : In "fico_score" (labels out)).
  { rewrite L. apply in_or_app. left. apply filter_In.
    split; [cbn; tauto | now apply (derived_has_fico _ _ D)]. }
  split; [exact I|].
  unfold empty. unfold labels in I. destruct (data out); [contradiction|].
  now rewrite orb_false_r.
Qed.

Lemma engineered_batch_layout_example :
  exists out,
    engineer_features sample_source = Ok out /\
    labels out = ["term_months"; "fico_score"; "term_12 months"; "term_36 months";
                  "term_60 months"; "loan_status"].
Proof.
  destruct (engineer_features sample_source) as [out|] eqn:E;
    [|vm_compute in E; discriminate E].
  exists out. split; [reflexivity|].
  destruct (engineered_batch_layout sample_source out E) as (w & D & L & _).
  rewrite L. vm_compute in D. injection D as <-. reflexivity.
Defined.

End Layout.

(** ** When the feature engineer raises, and what it never leaves missing *)

Section Failure.

Open Scope string_scope.
Open Scope list_scope.

Ltac distinct_strings :=
  let H := fresh in intro H; apply String.eqb_eq in H; vm_compute in H; discriminate H.

Lemma apply_cases f col :
  match apply f col with
  | Ok _ => forallb (fun v => match f v with Ok _ => true | Raise _ => false end) col = true
  | Raise _ => forallb (fun v => match f v with Ok _ => true | Raise _ => false end) col = false
  end.
Proof.
  induction col as [|x col IH]; [reflexivity|].
  cbn [apply forallb]. destruct (f x); cbn [bind andb]; [|reflexivity].
  destruct (apply f col); cbn [bind]; exact IH.
Qed.

Lemma derive_term_total w :
  exists w1, derive "term" "term_months" _parse_term w = Ok w1 /\
             forall c, c <> "term_months" -> get c w1 = get c w.
Proof.
  unfold derive. destruct (get "term" w) as [col|]; [|eauto].
  rewrite (apply_total _ _ col parse_term_value). cbn [bind].
  eexists. split; [reflexivity|]. intros c N. now apply get_assign_other.
Qed.

Lemma derive_emp_length_total w :
  exists w1, derive "emp_length" "emp_length_years" _parse_emp_length w = Ok w1 /\
             forall c, c <> "emp_length_years" -> get c w1 = get c w.
Proof.
  unfold derive. destruct (get "emp_length" w) as [col|]; [|eauto].
  rewrite (apply_total _ _ col parse_emp_length_value). cbn [bind].
  eexists. split; [reflexivity|]. intros c N. now apply get_assign_other.
Qed.

Lemma derive_percentage_cases c w :
  match derive c c _parse_percentage w with
  | Ok w1 => percentages_parse c w = true /\
             forall c', c' <> c -> get c' w1 = get c' w
  | Raise _ => percentages_parse c w = false
  end.
Proof.
  unfold derive, percentages_parse. destruct (get c w) as [col|]; [|auto].
  pose proof (apply_cases _parse_percentage col) as A.
  destruct (apply _parse_percentage col); cbn [bind]; [|exact A].
  split; [exact A|]. intros c' N. now apply get_assign_other.
Qed.

Lemma derived_cases w0 :
  match derived_numeric_fields w0 with
  | Ok _ => percentages_parse "int_rate" w0 && percentages_parse "dti" w0 = true
  | Raise _ => percentages_parse "int_rate" w0 && percentages_parse "dti" w0 = false
  end.
Proof.
  unfold derived_numeric_fields.
  destruct (derive_term_total w0) as (w1 & -> & G1). cbn [bind].
  destruct (derive_emp_length_total w1) as (w2 & -> & G2). cbn [bind].
  assert (I : percentages_parse "int_rate" w2 = percentages_parse "int_rate" w0).
  { unfold percentages_parse. rewrite G2, G1 by distinct_strings. reflexivity. }
  pose proof (derive_percentage_cases "int_rate" w2) as C3.
  destruct (derive "int_rate" "int_rate" _parse_percentage w2) as [w3|]; cbn [bind].
  - destruct C3 as [P3 G3]. rewrite <- I, P3. cbn [andb].
    assert (J : percentages_parse "dti" w3 = percentages_parse "dti" w0).
    { unfold percentages_parse. rewrite G3, G2, G1 by distinct_strings. reflexivity. }
    pose proof (derive_percentage_cases "dti" w3) as C4.
    destruct (derive "dti" "dti" _parse_percentage w3) as [w4|]; cbn [bind].
    + destruct C4 as [P4 _]. now rewrite <- J.
    + now rewrite <- J.
  - now rewrite <- I, C3.
Qed.

Lemma assemble_after_encoding w :
  exists out,
    assemble (numeric_features_of (target_encoding w))
             (one_hot_encode (categorical_features_of (target_encoding w))
                             (imputed_working (target_encoding w)))
             (imputed_working (target_encoding w)) = Ok out.
Proof.
  unfold assemble.
  rewrite (imputed_get_other _ _ target_not_numeric target_not_categorical).
  destruct (get TARGET_COLUMN w) as [col|] eqn:T.
  - rewrite (target_encoding_get_target _ _ T), astype_int_valid_labels.
    cbn [bind]. eauto.
  - rewrite (target_encoding_absent _ T), T. eauto.
Qed.

Lemma engineer_features_succeeds df :
  percentages_parse "int_rate" (_normalize_columns df) &&
  percentages_parse "dti" (_normalize_columns df) = true ->
  exists out, engineer_features df = Ok out.
Proof.
  intros P. rewrite engineer_features_eq.
  pose proof (derived_cases (_normalize_columns df)) as C.
  destruct (derived_numeric_fields (_normalize_columns df)) as [w|e]; cbn [bind].
  - cbv zeta. apply assemble_after_encoding.
  - congruence.
Qed.



(** *** Complete columns *)






End Failure.

(** ** Batches without a label, and the chunk reader *)

Section Reader.

Open Scope string_scope.
Open Scope list_scope.

(** A batch without a label column keeps every row and gets no target
    column. *)
Theorem unlabelled_batch_keeps_every_row df out :
  get TARGET_COLUMN (_normalize_columns df) = None ->
  engineer_features df = Ok out ->
  nrows out = nrows df /\ ~ In TARGET_COLUMN (labels out).
Proof.
  intros G E. destruct (engineered_labels_eq df out E) as (w & D & L).
  assert (T : get TARGET_COLUMN w = None) by (now rewrite (derived_get_target _ _ D)).
  split.
  - rewrite (engineered_nrows _ _ _ D E), (target_encoding_absent _ T).
    now rewrite (derived_nrows _ _ D).
  - rewrite L, has_get, T, app_nil_r.
    intros H. apply in_app_or in H as [H|H].
    + apply filter_In in H as [H _]. cbn in H.
      repeat (destruct H as [H|H]; [discriminate H|]). exact H.
    + apply in_flat_map in H as [c [Hc H]]. apply filter_In in Hc as [Hc _].
      destruct (get c (imputed_working (target_encoding w))) as [col|]; [|exact H].
      apply dummy_label_prefix in H.
      cbn in Hc. repeat (destruct Hc as [<-|Hc]; [discriminate H|]). exact Hc.
Qed.

Lemma unlabelled_batch_example :
  exists out,
    engineer_features imputation_example = Ok out /\
    nrows out = 4%nat /\ ~ In TARGET_COLUMN (labels out).
Proof.
  destruct (engineer_features imputation_example) as [out|] eqn:E;
    [|vm_compute in E; discriminate E].
  exists out. split; [reflexivity|].
  exact (unlabelled_batch_keeps_every_row imputation_example out eq_refl E).
Defined.

(** *** Reading in chunks *)

Lemma rectangular_forall df :
  rectangular df = true <->
  forall c col, In (c, col) (data df) -> length col = nrows df.
Proof.
  unfold rectangular. rewrite forallb_forall. split.
  - intros H c col I. apply Nat.eqb_eq. apply (H (c, col) I).
  - intros H [c col] I. apply Nat.eqb_eq. exact (H c col I).
Qed.








Lemma read_csv_nrows_all n df :
  rectangular df = true -> (nrows df <= n)%nat -> read_csv_nrows n df = df.
Proof.
  intros R L. destruct df as [k cols]. unfold read_csv_nrows. cbn [nrows data] in *.
  f_equal; [lia|].
  rewrite rectangular_forall in R. cbn [nrows data] in R.
  induction cols as [|[c col] cols IH]; [reflexivity|].
  cbn [map]. rewrite firstn_all2 by (rewrite (R c col (or_introl eq_refl)); lia).
  f_equal. apply IH. intros c' col' I. apply (R c' col'). now right.
Qed.

(** When the sample takes in the whole source, no chunk is left: the
    run writes the engineered source with its header and nothing
    else. *)
Theorem sample_covering_the_source_leaves_no_chunk source sample_rows chunk_size out :
  rectangular source = true -> (nrows source <= sample_rows)%nat ->
  (0 < chunk_size)%nat ->
  engineer_features source = Ok out ->
  process_full_dataset_chunked source sample_rows chunk_size =
  mkRun (to_csv out) (nrows out) None.
Proof.
  intros R L P E. unfold process_full_dataset_chunked, engineer_sample_and_get_schema.
  rewrite (read_csv_nrows_all _ _ R L), E. cbn [bind].
  unfold read_csv_chunks.
  destruct (chunk_size =? 0)%nat eqn:Z; [apply Nat.eqb_eq in Z; lia|].
  cbn [skip_rows nrows].
  replace (nrows source - sample_rows)%nat with 0%nat by lia. reflexivity.
Qed.

Lemma sample_covering_example :
  exists out,
    engineer_features sample_source = Ok out /\
    process_full_dataset_chunked sample_source 10 3 = mkRun (to_csv out) (nrows out) None.
Proof.
  destruct (engineer_features sample_source) as [out|] eqn:E;
    [|vm_compute in E; discriminate E].
  exists out. split; [reflexivity|].
  apply sample_covering_the_source_leaves_no_chunk;
    [reflexivity | cbn; lia | lia | exact E].
Defined.

End Reader.

(** ** One-hot encoding *)

Section OneHot.

Open Scope string_scope.
Open Scope list_scope.

Lemma before_lt a b : before a b <-> String_as_OT.lt a b.
Proof.
  unfold before, String.ltb, String_as_OT.lt.
  change (String_as_OT.compare a b) with (String.compare a b).
  destruct (String.compare a b); split; congruence.
Qed.

Lemma before_trans a b c : before a b -> before b c -> before a c.
Proof.
  rewrite !before_lt. apply (@RelationClasses.StrictOrder_Transitive _ _
                              String_as_OT.lt_strorder).
Qed.

Lemma before_irrefl a : ~ before a a.
Proof.
  rewrite before_lt. apply (@RelationClasses.StrictOrder_Irreflexive _ _
                              String_as_OT.lt_strorder).
Qed.

Lemma not_before_after a b : a <> b -> String.ltb a b = false -> before b a.
Proof.
  unfold before, String.ltb. intros N H.
  rewrite String.compare_antisym.
  destruct (String.compare a b) eqn:C; cbn; try reflexivity; try discriminate.
  apply String.compare_eq_iff in C. contradiction.
Qed.

Lemma insert_level_sorted x l : Sorted before l -> Sorted before (insert_level x l).
Proof.
  induction 1 as [|y r S IH Hd]; cbn [insert_level]; [repeat constructor|].
  destruct (String.eqb_spec x y) as [->|N]; [now constructor|].
  destruct (String.ltb x y) eqn:L.
  - constructor; [now constructor|]. now constructor.
  - constructor; [assumption|].
    destruct r as [|z r]; cbn [insert_level] in *.
    + constructor. now apply not_before_after.
    + destruct (String.eqb_spec x z) as [->|Nz]; [exact Hd|].
      destruct (String.ltb x z); constructor;
        [now apply not_before_after | now inversion Hd].
Qed.

Lemma levels_sorted l : Sorted before (levels l).
Proof.
  induction l as [|x r IH]; cbn; [constructor|]. now apply insert_level_sorted.
Qed.

Lemma levels_NoDup l : NoDup (levels l).
Proof.
  pose proof (levels_sorted l) as S.
  apply Sorted_StronglySorted in S; [|intros a b c; apply before_trans].
  induction S as [|y r _ IH F]; constructor; [|exact IH].
  intros I. rewrite Forall_forall in F. apply (before_irrefl y). now apply F.
Qed.

Lemma count_matching_NoDup s l :
  NoDup l -> In s l -> length (filter (fun v => s =? v) l) = 1%nat.
Proof.
  induction 1 as [|y r Hy ND IH]; [contradiction|].
  cbn [filter]. intros [->|I].
  - rewrite String.eqb_refl. cbn [length]. f_equal.
    apply length_zero_iff_nil.
    destruct (filter (fun v => s =? v) r) as [|z t] eqn:F; [reflexivity|].
    assert (Z : In z (filter (fun v => s =? v) r)) by (rewrite F; now left).
    apply filter_In in Z as [Z E]. apply String.eqb_eq in E. subst z. contradiction.
  - destruct (String.eqb_spec s y) as [->|N]; [contradiction|]. now apply IH.
Qed.

Lemma texts_In col i s : nth_error col i = Some (Txt s) -> In s (texts col).
Proof.
  intros H. apply nth_error_In in H. unfold texts.
  apply in_flat_map. exists (Txt s). split; [assumption | now left].
Qed.

Lemma flags_at_dummies prefix col i s :
  nth_error col i = Some (Txt s) ->
  flags_at i (dummies_of prefix col) =
  map (fun v => Flag (s =? v)) (levels (texts col)).
Proof.
  intros H. unfold flags_at, dummies_of. rewrite map_map.
  apply map_ext. intros v. cbn [snd].
  rewrite (nth_indep _ NaN (Flag false)).
  - rewrite (map_nth (fun x => match x with Txt s0 => Flag (s0 =? v) | _ => Flag false end)
                     col NaN i).
    now rewrite (nth_error_nth _ _ _ H).
  - rewrite length_map. apply nth_error_Some. congruence.
Qed.

Lemma count_true_flags s l :
  count_true (map (fun v => Flag (s =? v)) l) = length (filter (fun v => s =? v) l).
Proof.
  unfold count_true. induction l as [|v l IH]; [reflexivity|].
  cbn [map filter]. destruct (s =? v); cbn [length]; now rewrite IH.
Qed.

Lemma impute_categorical_all_text raw :
  forallb is_text (impute_categorical_column (map normalize_text raw)) = true /\
  length (impute_categorical_column (map normalize_text raw)) = length raw.
Proof.
  unfold impute_categorical_column, fillna, replace_nan_text.
  split; [|now rewrite !length_map].
  set (fv := fill_value _).
  assert (T : is_text fv = true).
  { unfold fv, fill_value. now destruct (mode _). }
  rewrite !map_map. generalize fv T. clear fv T. intros fv T.
  induction raw as [|v raw IH]; [reflexivity|].
  cbn [map forallb]. rewrite IH, andb_true_r.
  unfold normalize_text. destruct (_ =? "nan"); [exact T | reflexivity].
Qed.

(** The indicator columns of a categorical column come one per distinct
    value, in ascending order of the value; and on every row of a
    selected categorical column, once imputed, exactly one of its
    indicators is true. *)
Theorem one_hot_rows_have_one_true_flag :
  (forall col, Sorted before (levels (texts col)) /\ NoDup (levels (texts col))) /\
  (forall prefix col i s,
      nth_error col i = Some (Txt s) ->
      count_true (flags_at i (dummies_of prefix col)) = 1%nat) /\
  (forall w c raw,
      In c RAW_CATEGORICAL_COLUMNS -> get c w = Some raw ->
      exists col,
        get c (imputed_working w) = Some col /\
        forall i, (i < length raw)%nat ->
                  count_true (flags_at i (dummies_of c col)) = 1%nat).
Proof.
  assert (One : forall prefix col i s,
             nth_error col i = Some (Txt s) ->
             count_true (flags_at i (dummies_of prefix col)) = 1%nat).
  { intros prefix col i s H.
    rewrite (flags_at_dummies prefix col i s H), count_true_flags.
    apply count_matching_NoDup; [apply levels_NoDup|].
    apply In_levels. now apply (texts_In col i). }
  split; [intros col; split; [apply levels_sorted | apply levels_NoDup]|].
  split; [exact One|].
  intros w c raw Hc G. apply mem_string_In in Hc.
  rewrite (imputed_get_categorical _ _ Hc), G. cbn [option_map].
  eexists. split; [reflexivity|]. intros i L.
  destruct (impute_categorical_all_text raw) as [T Len].
  destruct (nth_error (impute_categorical_column (map normalize_text raw)) i)
    as [v|] eqn:N.
  - rewrite forallb_forall in T. pose proof (T v (nth_error_In _ _ N)) as Tv.
    destruct v; try discriminate Tv. now apply (One c _ i s).
  - apply nth_error_None in N. lia.
Qed.

Lemma one_hot_example :
  exists col,
    get "purpose" (imputed_working imputation_example) = Some col /\
    count_true (flags_at 1 (dummies_of "purpose" col)) = 1%nat.
Proof.
  destruct one_hot_rows_have_one_true_flag as (_ & _ & Rows).
  destruct (Rows imputation_example "purpose"
                 [Txt "Car"; NaN; Txt "car "; Txt "house"]) as (col & G & F);
    [cbn; tauto | reflexivity |].
  exists col. split; [exact G|]. apply F. cbn. lia.
Defined.

End OneHot.

(** ** Column names, medians *)

Section Names.

Open Scope string_scope.
Open Scope list_scope.

Ltac by_cases_on c :=
  destruct c as [[] [] [] [] [] [] [] []]; vm_compute; congruence.

Lemma lower_char_idempotent c : Text.lower_char (Text.lower_char c) = Text.lower_char c.
Proof. by_cases_on c. Qed.

Lemma isspace_lower_char c : Text.isspace (Text.lower_char c) = Text.isspace c.
Proof. by_cases_on c. Qed.

Lemma lower_idempotent s : Text.lower (Text.lower s) = Text.lower s.
Proof.
  induction s as [|c s IH]; cbn [Text.lower]; [reflexivity|].
  now rewrite lower_char_idempotent, IH.
Qed.

Lemma lstrip_lower s : Text.lstrip (Text.lower s) = Text.lower (Text.lstrip s).
Proof.
  induction s as [|c s IH]; cbn [Text.lower Text.lstrip]; [reflexivity|].
  rewrite isspace_lower_char. now destruct (Text.isspace c).
Qed.

Lemma rstrip_lower s : Text.rstrip (Text.lower s) = Text.lower (Text.rstrip s).
Proof.
  induction s as [|c s IH]; cbn [Text.lower Text.rstrip]; [reflexivity|].
  rewrite IH, isspace_lower_char.
  destruct (Text.rstrip s); cbn [Text.lower]; [now destruct (Text.isspace c) | reflexivity].
Qed.

Lemma strip_lower s : Text.strip (Text.lower s) = Text.lower (Text.strip s).
Proof. unfold Text.strip. now rewrite lstrip_lower, rstrip_lower. Qed.

Lemma rstrip_cons c r :
  Text.rstrip (String c r) =
  match Text.rstrip r with
  | EmptyString => if Text.isspace c then EmptyString else String c EmptyString
  | r' => String c r'
  end.
Proof. reflexivity. Qed.

Lemma rstrip_idempotent s : Text.rstrip (Text.rstrip s) = Text.rstrip s.
Proof.
  induction s as [|c s IH]; [reflexivity|].
  rewrite (rstrip_cons c s).
  destruct (Text.rstrip s) as [|d r] eqn:E.
  - destruct (Text.isspace c) eqn:Sp; [reflexivity|].
    rewrite rstrip_cons. cbn [Text.rstrip]. now rewrite Sp.
  - rewrite rstrip_cons, IH. reflexivity.
Qed.

Lemma lstrip_head s :
  Text.lstrip s = EmptyString \/
  exists c r, Text.lstrip s = String c r /\ Text.isspace c = false.
Proof.
  induction s as [|c s IH]; cbn [Text.lstrip]; [now left|].
  destruct (Text.isspace c) eqn:Sp; [exact IH|]. right. eauto.
Qed.

Lemma lstrip_rstrip_fixed c r :
  Text.isspace c = false ->
  Text.lstrip (Text.rstrip (String c r)) = Text.rstrip (String c r).
Proof.
  intros Sp. cbn [Text.rstrip]. rewrite Sp.
  destruct (Text.rstrip r); cbn [Text.lstrip]; now rewrite Sp.
Qed.

Lemma strip_idempotent s : Text.strip (Text.strip s) = Text.strip s.
Proof.
  unfold Text.strip. destruct (lstrip_head s) as [E|(c & r & E & Sp)]; rewrite E.
  - reflexivity.
  - rewrite (lstrip_rstrip_fixed c r Sp). apply rstrip_idempotent.
Qed.

Lemma normalize_name_idempotent c :
  Text.strip (Text.lower (Text.strip (Text.lower c))) = Text.strip (Text.lower c).
Proof. now rewrite strip_lower, strip_idempotent, <- strip_lower, lower_idempotent. Qed.

(** Normalising column names twice is normalising them once, and the
    engineer, which normalises first, gives the same result on a batch
    and on the batch with its names already normalised: the case of the
    headers and the blanks around them do not matter. *)
Theorem normalize_columns_idempotent df :
  _normalize_columns (_normalize_columns df) = _normalize_columns df /\
  engineer_features (_normalize_columns df) = engineer_features df.
Proof.
  assert (I : _normalize_columns (_normalize_columns df) = _normalize_columns df).
  { unfold _normalize_columns. cbn [nrows data]. f_equal.
    rewrite map_map. apply map_ext. intros [c col].
    now rewrite normalize_name_idempotent. }
  split; [exact I|]. unfold engineer_features. now rewrite I.
Qed.

End Names.

Section MedianRange.

Open Scope list_scope.
Open Scope Q_scope.

Lemma sorted_nth s i j :
  Sorted Qle s -> (i <= j)%nat -> (j < length s)%nat -> nth i s 0 <= nth j s 0.
Proof.
  intros S. apply Sorted_StronglySorted in S; [|intros a b c; apply Qle_trans].
  revert i j. induction S as [|x r _ IH F]; intros i j Hij Hj; [cbn in Hj; lia|].
  destruct i as [|i], j as [|j]; cbn [nth]; try lia.
  - apply Qle_refl.
  - rewrite Forall_forall in F. apply F, nth_In. cbn in Hj. lia.
  - apply IH; cbn in Hj; lia.
Qed.

Lemma mean_between a b : a <= b -> a <= (a + b) / 2 /\ (a + b) / 2 <= b.
Proof.
  intros H. split.
  - apply Qle_shift_div_l; [reflexivity|]. 
    setoid_replace (a * 2) with (a + a) by ring. now apply Qplus_le_r.
  - apply Qle_shift_div_r; [reflexivity|].
    setoid_replace (b * 2) with (b + b) by ring. now apply Qplus_le_l.
Qed.

Lemma Num_injective a b : Num a = Num b -> a = b.
Proof. now intros [= ->]. Qed.

Lemma le_Qred x y : x <= y -> x <= Qred y.
Proof.
  intros H. eapply Qle_trans; [exact H|].
  apply Qle_lteq. right. symmetry. apply Qred_correct.
Qed.

Lemma Qred_le_bound x y : x <= y -> Qred x <= y.
Proof.
  intros H. eapply Qle_trans; [|exact H].
  apply Qle_lteq. right. apply Qred_correct.
Qed.

(** The median a column is filled with lies within the range of the
    column's own values: between two of them, and equal to one of them
    when their count is odd. *)
Theorem median_within_range col q :
  median col = Num q ->
  exists lo hi,
    In lo (numbers col) /\ In hi (numbers col) /\ lo <= q /\ q <= hi.
Proof.
  unfold median. pose proof (sort_Q_sorted (numbers col)) as S.
  pose proof (sort_Q_perm (numbers col)) as P.
  set (s := sort_Q (numbers col)) in *. set (n := length s).
  assert (Mem : forall i, (i < n)%nat -> In (nth i s 0) (numbers col)).
  { intros i Hi. eapply Permutation_in; [exact P|]. now apply nth_In. }
  destruct (n =? 0)%nat eqn:Z; [discriminate|]. apply Nat.eqb_neq in Z.
  assert (Half : (n / 2 < n)%nat) by (apply Nat.div_lt; lia).
  destruct (Nat.odd n) eqn:O.
  - intros H. apply Num_injective in H. subst q.
    exists (nth (n / 2) s 0), (nth (n / 2) s 0).
    repeat split; try apply Mem; try assumption; apply Qle_refl.
  - intros H. apply Num_injective in H. subst q.
    assert (Two : (2 <= n)%nat).
    { destruct n as [|[|n]]; [lia | discriminate O | lia]. }
    assert (Pos : (1 <= n / 2)%nat) by (apply Nat.div_le_lower_bound; lia).
    exists (nth (n / 2 - 1) s 0), (nth (n / 2) s 0).
    split; [apply Mem; lia|]. split; [apply Mem; lia|].
    destruct (mean_between (nth (n / 2 - 1) s 0) (nth (n / 2) s 0)) as [A B];
      [apply sorted_nth; [assumption | lia | assumption]|].
    split; [apply le_Qred; exact A | apply Qred_le_bound; exact B].
Qed.

Lemma median_within_range_example :
  exists lo hi,
    In lo [1; 7; 4; 10] /\ In hi [1; 7; 4; 10] /\ lo <= 11 # 2 /\ 11 # 2 <= hi.
Proof.
  exact (median_within_range [Num 1; NaN; Num 7; Num 4; Num 10] (11 # 2) eq_refl).
Defined.

End MedianRange.

(** ** Distinct labels *)

Section DistinctLabels.

Open Scope string_scope.
Open Scope list_scope.

Lemma append_injective p a b : String.append p a = String.append p b -> a = b.
Proof.
  induction p as [|c p IH]; cbn [String.append]; [auto|].
  intros [= H]. auto.
Qed.

Lemma dummy_labels_NoDup prefix col : NoDup (dummy_labels prefix col).
Proof.
  unfold dummy_labels. apply NoDup_map_NoDup_ForallPairs; [|apply levels_NoDup].
  intros a b _ _ H. apply append_injective in H. now injection H.
Qed.

Lemma dummy_label_form prefix col lbl :
  In lbl (dummy_labels prefix col) ->
  exists v, In v (texts col) /\ lbl = String.append prefix (String "_" v).
Proof.
  unfold dummy_labels. intros H. apply in_map_iff in H as [v [<- I]].
  exists v. split; [now apply In_levels | reflexivity].
Qed.

(** Indicator labels of two different categorical columns never
    coincide. *)
Lemma dummy_labels_disjoint c1 c2 col1 col2 lbl :
  In c1 RAW_CATEGORICAL_COLUMNS -> In c2 RAW_CATEGORICAL_COLUMNS -> c1 <> c2 ->
  In lbl (dummy_labels c1 col1) -> ~ In lbl (dummy_labels c2 col2).
Proof.
  intros H1 H2 N I1 I2.
  apply dummy_label_form in I1 as (v1 & _ & ->).
  apply dummy_label_form in I2 as (v2 & _ & E).
  cbn in H1, H2.
  repeat (destruct H1 as [<-|H1];
          [repeat (destruct H2 as [<-|H2];
                   [first [contradiction (N eq_refl) | discriminate E]|]);
           exact H2|]).
  exact H1.
Qed.

(** An indicator is labelled like a numeric column only for the value
    ["months"] of [term] or the value ["years"] of [emp_length]. *)
Lemma dummy_label_numeric c col lbl :
  In c RAW_CATEGORICAL_COLUMNS -> In lbl NUMERIC_CANDIDATES ->
  In lbl (dummy_labels c col) ->
  (c = "term" /\ In "months" (texts col)) \/
  (c = "emp_length" /\ In "years" (texts col)).
Proof.
  intros Hc Hl I. apply dummy_label_form in I as (v & Iv & E).
  cbn in Hc, Hl.
  repeat (destruct Hc as [<-|Hc];
          [repeat (destruct Hl as [<-|Hl];
                   [first [discriminate E
                          | injection E as <-; first [left; now split | right; now split]]|]);
           contradiction Hl|]).
  contradiction Hc.
Qed.

Lemma flat_dummy_labels_NoDup (F : string -> option (list cell)) cf :
  NoDup cf -> Forall (fun c => In c RAW_CATEGORICAL_COLUMNS) cf ->
  NoDup (flat_map (fun c => match F c with
                            | Some col => dummy_labels c col
                            | None => []
                            end) cf).
Proof.
  induction 1 as [|c cf Hc ND IH]; intros Fa; [constructor|].
  inversion Fa as [|? ? Hin Fa']; subst. cbn [flat_map].
  apply NoDup_app; [| now apply IH |].
  - destruct (F c); [apply dummy_labels_NoDup | constructor].
  - intros lbl I1 I2. apply in_flat_map in I2 as (c' & Hc' & I2).
    destruct (F c) as [col|]; [|contradiction].
    destruct (F c') as [col'|]; [|contradiction].
    rewrite Forall_forall in Fa'.
    apply (dummy_labels_disjoint c c' col col' lbl Hin (Fa' c' Hc')); try assumption.
    intros ->. contradiction.
Qed.

(** The labels of an engineered batch are pairwise distinct, and so the
    batch can be reconciled with any schema, unless a [term] cell reads
    ["months"] or an [emp_length] cell reads ["years"]: only then does
    an indicator take the label of a derived numeric column. *)
Theorem engineered_labels_distinct df w out :
  derived_numeric_fields (_normalize_columns df) = Ok w ->
  engineer_features df = Ok out ->
  (forall col, get "term" (imputed_working (target_encoding w)) = Some col ->
               ~ In "months" (texts col)) ->
  (forall col, get "emp_length" (imputed_working (target_encoding w)) = Some col ->
               ~ In "years" (texts col)) ->
  distinct (labels out) = true /\
  forall schema, exists r, reindex schema out = Ok r.
Proof.
  intros D E Ht He.
  assert (ND : distinct (labels out) = true).
  { destruct (engineered_labels_eq df out E) as (w' & D' & L).
    rewrite D in D'. injection D' as <-.
    apply NoDup_distinct. rewrite L.
    assert (CatIn : Forall (fun c => In c RAW_CATEGORICAL_COLUMNS)
                           (filter (fun c => has c w) RAW_CATEGORICAL_COLUMNS)).
    { apply Forall_forall. intros c H. now apply filter_In in H. }
    apply NoDup_app.
    - apply NoDup_filter, NoDup_NUMERIC_CANDIDATES.
    - apply NoDup_app.
      + apply flat_dummy_labels_NoDup; [|exact CatIn].
        apply NoDup_filter, NoDup_RAW_CATEGORICAL_COLUMNS.
      + destruct (has TARGET_COLUMN w); repeat constructor; auto.
      + intros lbl I K. destruct (has TARGET_COLUMN w); [|contradiction].
        destruct K as [<-|[]].
        apply in_flat_map in I as (c & Hc & I). apply filter_In in Hc as [Hc _].
        destruct (get c (imputed_working (target_encoding w))) as [col|];
          [|contradiction].
        apply dummy_label_prefix in I.
        cbn in Hc. repeat (destruct Hc as [<-|Hc]; [discriminate I|]). exact Hc.
    - intros lbl I K. apply filter_In in I as [I _].
      apply in_app_or in K as [K|K].
      + apply in_flat_map in K as (c & Hc & K). apply filter_In in Hc as [Hc _].
        destruct (get c (imputed_working (target_encoding w))) as [col|] eqn:G;
          [|contradiction].
        destruct (dummy_label_numeric c col lbl Hc I K) as [[-> M]|[-> M]].
        * exact (Ht col G M).
        * exact (He col G M).
      + destruct (has TARGET_COLUMN w); [|contradiction].
        destruct K as [<-|[]]. cbn in I.
        repeat (destruct I as [I|I]; [discriminate I|]). exact I. }
  split; [exact ND|]. intros schema. now apply reindex_distinct.
Qed.

Lemma engineered_labels_distinct_example :
  exists out,
    engineer_features sample_source = Ok out /\ distinct (labels out) = true.
Proof.
  destruct (engineer_features sample_source) as [out|] eqn:E;
    [|vm_compute in E; discriminate E].
  destruct (derived_numeric_fields (_normalize_columns sample_source))
    as [w|] eqn:D; [|vm_compute in D; discriminate D].
  exists out. split; [reflexivity|].
  apply (engineered_labels_distinct sample_source w out D E).
  - vm_compute in D. injection D as <-. intros col G.
    vm_compute in G. injection G as <-. vm_compute.
    intros H. repeat (destruct H as [H|H]; [discriminate H|]). exact H.
  - vm_compute in D. injection D as <-. intros col G.
    vm_compute in G. discriminate G.
Defined.

End DistinctLabels.

(** ** Normalised text, empty batches *)

Section Edges.

Open Scope string_scope.
Open Scope list_scope.

Ltac distinct_strings :=
  let H := fresh in intro H; apply String.eqb_eq in H; vm_compute in H; discriminate H.

Lemma lower_strip_idempotent s :
  Text.lower (Text.strip (Text.lower (Text.strip s))) = Text.lower (Text.strip s).
Proof. now rewrite strip_lower, lower_idempotent, strip_idempotent. Qed.

(** Text normalisation is idempotent, so categories and labels are
    read the same whatever the case and the surrounding blanks of the
    raw text: a cell and its normalised form get the same category and
    the same label code. *)
Theorem text_normalisation_idempotent v :
  normalize_text (normalize_text v) = normalize_text v /\
  encode_label (normalize_text v) = encode_label v.
Proof.
  assert (I : normalize_text (normalize_text v) = normalize_text v).
  { unfold normalize_text. cbn [py_str]. f_equal. apply lower_strip_idempotent. }
  split; [exact I|]. unfold encode_label. now rewrite I.
Qed.

Lemma derive_get_untouched src dst parser w w' c :
  derive src dst parser w = Ok w' -> c <> dst -> get c w' = get c w.
Proof. apply derive_get_other. Qed.

Lemma derived_get_categorical w0 w c :
  derived_numeric_fields w0 = Ok w -> In c RAW_CATEGORICAL_COLUMNS ->
  get c w = get c w0.
Proof.
  unfold derived_numeric_fields. intros H Hc.
  destruct (derive "term" _ _ w0) as [w1|] eqn:E1; [cbn [bind] in H|discriminate].
  destruct (derive "emp_length" _ _ w1) as [w2|] eqn:E2; [cbn [bind] in H|discriminate].
  destruct (derive "int_rate" _ _ w2) as [w3|] eqn:E3; [cbn [bind] in H|discriminate].
  destruct (derive "dti" _ _ w3) as [w4|] eqn:E4; [cbn [bind] in H|discriminate].
  injection H as <-.
  assert (N : c <> "fico_score" /\ c <> "dti" /\ c <> "int_rate" /\
              c <> "emp_length_years" /\ c <> "term_months").
  { cbn in Hc. repeat (destruct Hc as [<-|Hc]; [repeat split; distinct_strings|]).
    contradiction. }
  destruct N as (N0 & N1 & N2 & N3 & N4).
  rewrite get_assign_other by exact N0.
  rewrite (derive_get_other _ _ _ _ _ c E4 N1), (derive_get_other _ _ _ _ _ c E3 N2).
  now rewrite (derive_get_other _ _ _ _ _ c E2 N3), (derive_get_other _ _ _ _ _ c E1 N4).
Qed.

Lemma target_encoding_get_other w c :
  c <> TARGET_COLUMN ->
  exists m, get c (target_encoding w) = option_map (keep m) (get c w) \/
            get c (target_encoding w) = get c w.
Proof.
  intros N. destruct (get TARGET_COLUMN w) as [col|] eqn:T.
  - exists (map label_is_valid col). left.
    rewrite (target_encoding_eq _ _ T), get_select_rows.
    now rewrite get_assign_other.
  - exists []. right. now rewrite (target_encoding_absent _ T).
Qed.

Lemma flat_map_all_nil {A B} (f : A -> list B) l :
  (forall x, In x l -> f x = []) -> flat_map f l = [].
Proof.
  induction l as [|x l IH]; intros H; [reflexivity|].
  cbn [flat_map]. rewrite (H x (or_introl eq_refl)). apply IH.
  intros y I. apply H. now right.
Qed.

(** A batch without rows engineers to a frame without rows and without
    any indicator column: only the numeric columns and the target
    remain.  A sample of zero rows therefore fixes a schema in which
    every later category is dropped. *)
Theorem empty_batch_has_no_indicator df :
  rectangular df = true -> nrows df = 0%nat ->
  exists w out,
    derived_numeric_fields (_normalize_columns df) = Ok w /\
    engineer_features df = Ok out /\
    nrows out = 0%nat /\
    labels out = filter (fun c => has c w) NUMERIC_CANDIDATES ++
                 (if has TARGET_COLUMN w then [TARGET_COLUMN] else []).
Proof.
  intros R Z.
  assert (Rn : rectangular (_normalize_columns df) = true)
    by (now rewrite rectangular_normalize).
  assert (Empty : forall c col, get c (_normalize_columns df) = Some col -> col = []).
  { intros c col G. apply (rectangular_get _ _ _ Rn) in G.
    cbn [_normalize_columns nrows] in G. rewrite Z in G. now destruct col. }
  destruct (engineer_features_succeeds df) as [out E].
  { unfold percentages_parse.
    destruct (get "int_rate" (_normalize_columns df)) as [a|] eqn:A;
      [rewrite (Empty _ _ A)|];
      (destruct (get "dti" (_normalize_columns df)) as [b|] eqn:B;
       [rewrite (Empty _ _ B)|]); reflexivity. }
  destruct (engineered_labels_eq df out E) as (w & D & L).
  exists w, out. split; [exact D|]. split; [exact E|]. split.
  - rewrite (engineered_nrows _ _ _ D E).
    destruct (get TARGET_COLUMN w) as [col|] eqn:T.
    + rewrite (target_encoding_nrows _ _ T).
      rewrite (derived_get_target _ _ D) in T. now rewrite (Empty _ _ T).
    + rewrite (target_encoding_absent _ T), (derived_nrows _ _ D).
      cbn [_normalize_columns nrows]. exact Z.
  - rewrite L. f_equal.
    replace (flat_map _ _) with (@nil string); [reflexivity|].
    symmetry. apply flat_map_all_nil. intros c Hc.
    apply filter_In in Hc as [Hc _].
    pose proof Hc as M. apply mem_string_In in M.
    rewrite (imputed_get_categorical _ _ M).
    assert (N : c <> TARGET_COLUMN).
    { cbn in Hc. repeat (destruct Hc as [<-|Hc]; [distinct_strings|]). contradiction. }
    destruct (target_encoding_get_other w c N) as [m [G|G]]; rewrite G;
      rewrite (derived_get_categorical _ _ _ D Hc);
      destruct (get c (_normalize_columns df)) as [raw|] eqn:Raw; try reflexivity;
      rewrite (Empty _ _ Raw); cbn [option_map]; try rewrite keep_nil; reflexivity.
Qed.

Lemma empty_batch_example :
  exists w out,
    derived_numeric_fields (_normalize_columns (read_csv_nrows 0 sample_source)) = Ok w /\
    engineer_features (read_csv_nrows 0 sample_source) = Ok out /\
    nrows out = 0%nat.
Proof.
  destruct (empty_batch_has_no_indicator (read_csv_nrows 0 sample_source))
    as (w & out & D & E & N & _); [reflexivity | reflexivity |].
  exists w, out. split; [exact D|]. split; [exact E | exact N].
Defined.

End Edges.
